(** * bbcrss: ingestion, enrichment and pagination

    A shallow embedding of the Go sources of the feed service
    (news.go, parser.go, storage.go, mq.go, service.go) and the
    properties of its pagination arithmetic, its fetch and extraction
    helpers and its two background jobs.

    Go's [int] is the 64-bit integer of the build target (linux/amd64),
    [float64] is IEEE 754 binary64, strings are byte strings.  The
    network, the database and the queue are data: what they answer is
    an input of the functions that call them, failures included. *)

From Stdlib Require Import ZArith Lia List Ascii String Bool.
From Stdlib Require Import Floats.SpecFloat.
From stdpp Require Import base gmap strings list fin_maps pretty sorting.

Local Open Scope Z_scope.

(* ===================================================================== *)
(** ** Go's [int] on a 64-bit platform *)
(* ===================================================================== *)

(** [int] is a two's complement machine integer; every arithmetic
    operation wraps around silently.  Values are carried as [Z] and
    [wrap] brings a mathematical result back into range. *)
Module GoInt.

Definition bits : Z := 64.
Definition modulus : Z := 2 ^ bits.
Definition MaxInt : Z := 2 ^ (bits - 1) - 1.
Definition MinInt : Z := - 2 ^ (bits - 1).

Definition in_range (z : Z) : Prop := MinInt <= z <= MaxInt.

Definition wrap (z : Z) : Z := (z + 2 ^ (bits - 1)) mod modulus - 2 ^ (bits - 1).

Definition add (a b : Z) : Z := wrap (a + b).
Definition sub (a b : Z) : Z := wrap (a - b).
Definition mul (a b : Z) : Z := wrap (a * b).

End GoInt.

(* ===================================================================== *)
(** ** Go's [float64], as far as news.go uses it *)
(* ===================================================================== *)

(** IEEE 754 binary64 on top of the specification floats of the
    standard library: conversion from [int] and division round to
    nearest even, [Ceil] is exact. *)
Module GoFloat64.

Definition prec : Z := 53.
Definition emax : Z := 1024.

Definition float64 : Type := spec_float.

(** [float64(n)] for an [int] n. *)
Definition of_int (n : Z) : float64 := binary_normalize prec emax n 0 false.

(** [x / y]. *)
Definition div (x y : float64) : float64 := SFdiv prec emax x y.

(** [math.Ceil(x)]: the least integral value not below [x]; zeros,
    infinities and NaN are returned unchanged. *)
Definition Ceil (x : float64) : float64 :=
  match x with
  | S754_finite s m e =>
      if 0 <=? e then x
      else
        let v := cond_Zopp s (Zpos m) in
        binary_normalize prec emax (- ((- v) / 2 ^ (- e))) 0 s
  | _ => x
  end.

(** [int(x)]: truncation towards zero.  A value outside the range of
    [int] (and NaN) has an implementation-dependent result; amd64
    yields the "integer indefinite" value [MinInt]. *)
Definition to_int (x : float64) : Z :=
  match x with
  | S754_zero _ => 0
  | S754_finite s m e =>
      let t := if 0 <=? e then Zpos m * 2 ^ e else Zpos m / 2 ^ (- e) in
      let v := cond_Zopp s t in
      if (GoInt.MinInt <=? v) && (v <=? GoInt.MaxInt) then v else GoInt.MinInt
  | _ => GoInt.MinInt
  end.

End GoFloat64.

(* ===================================================================== *)
(** ** news.go: items, pagination metadata and filters *)
(* ===================================================================== *)

(** [NewsItem]; [Published] is a [time.Time], kept as seconds. *)
Record NewsItem := mkNewsItem {
  ID : Z;
  Title : string;
  Link : string;
  Published : Z;
  Description : string;
  Image : string
}.

Record Metadata := mkMetadata {
  CurrentPage : Z;
  MPageSize : Z;
  FirstPage : Z;
  LastPage : Z;
  TotalRecords : Z
}.

(** [Metadata{}] *)
Definition zeroMetadata : Metadata := mkMetadata 0 0 0 0 0.

Definition calculateMetadata (totalRecords page pageSize : Z) : Metadata :=
  if totalRecords =? 0 then zeroMetadata
  else
    {| CurrentPage := page;
       MPageSize := pageSize;
       FirstPage := 1;
       LastPage :=
         GoFloat64.to_int
           (GoFloat64.Ceil
              (GoFloat64.div (GoFloat64.of_int totalRecords)
                             (GoFloat64.of_int pageSize)));
       TotalRecords := totalRecords |}.

Record Filters := mkFilters {
  Page : Z;
  PageSize : Z
}.

Definition defaultFilters : Filters := {| Page := 1; PageSize := 5 |}.

(** [validate] has a pointer receiver and updates it in place; here it
    returns the updated value.  The second test reads [f.PageSize] after
    the first assignment, which never touches it. *)
Definition validate (f : Filters) (defaultFilters : Filters) : Filters :=
  let f1 := if Page f <? 1
            then {| Page := Page defaultFilters; PageSize := PageSize f |}
            else f in
  if PageSize f1 <? 1
  then {| Page := Page f1; PageSize := PageSize defaultFilters |}
  else f1.

Definition limit (f : Filters) : Z := PageSize f.

Definition offset (f : Filters) : Z :=
  let offset := GoInt.mul (GoInt.sub (Page f) 1) (PageSize f) in
  Z.min offset GoInt.MaxInt.

(** A [Filters] value as Go can hold it. *)
Definition Filters_ok (f : Filters) : Prop :=
  GoInt.in_range (Page f) /\ GoInt.in_range (PageSize f).

(** The mathematical ceiling of [a / b] for [b > 0]. *)
Definition ceil_div (a b : Z) : Z := (a + b - 1) / b.

(* ===================================================================== *)
(** ** Go's [error] values *)
(* ===================================================================== *)

(** The errors the program creates or inspects: the two sentinels of
    storage.go, [errors.New]/[fmt.Errorf] without [%w], [fmt.Errorf]
    with [%w] (which keeps the wrapped cause), the sentinel
    [sql.ErrNoRows], and the driver's [pq.Error] with its SQLSTATE
    code. *)
Inductive error : Type :=
| ErrAlreadyExists
| ErrNotFound
| sqlErrNoRows
| errorString (msg : string)
| wrapError (msg : string) (cause : error)
| pqError (code : string).

Definition error_eqb (a b : error) : bool :=
  match a, b with
  | ErrAlreadyExists, ErrAlreadyExists => true
  | ErrNotFound, ErrNotFound => true
  | sqlErrNoRows, sqlErrNoRows => true
  | _, _ => false
  end.

(** [errors.Is(err, target)] for a sentinel [target]: follows the chain
    of wrapped causes. *)
Fixpoint errors_Is (err target : error) : bool :=
  error_eqb err target ||
  match err with
  | wrapError _ cause => errors_Is cause target
  | _ => false
  end.

(** [errors.Unwrap] iterated: does [cause] occur on the chain of [err]? *)
Fixpoint carries (err cause : error) : Prop :=
  err = cause \/
  match err with
  | wrapError _ inner => carries inner cause
  | _ => False
  end.

(* ===================================================================== *)
(** ** The fragment of Go's [regexp] that parser.go uses *)
(* ===================================================================== *)

(** The two patterns of [enrichmentTable] are built from the flag group
    [(?i)], literal characters, negated one-character classes under [+],
    and one capturing group.  [MustCompile] accepts exactly this
    fragment; matching is leftmost-first with greedy repetition, as in
    RE2.  Strings are byte strings: every boundary of a match of this
    fragment sits next to an ASCII byte, so matching bytes and matching
    UTF-8 runes agree. *)
Module regexp.

Inductive node : Type :=
| Lit (alts : list string)   (* one rune, given by its admissible encodings *)
| PlusNot (c : ascii)        (* [^c]+ *)
| CapOpen
| CapClose.

Definition Regexp : Type := list node.

Definition is_lower (c : ascii) : bool :=
  let n := nat_of_ascii c in (97 <=? n)%nat && (n <=? 122)%nat.
Definition is_upper (c : ascii) : bool :=
  let n := nat_of_ascii c in (65 <=? n)%nat && (n <=? 90)%nat.

Definition one (c : ascii) : string := String c EmptyString.

(** The encodings of the runes that a literal [c] matches.  Under
    [(?i)] a letter matches both of its cases; [s] and [k] also fold
    to U+017F and U+212A. *)
Definition lit_alts (fold : bool) (c : ascii) : list string :=
  if negb fold then [one c]
  else
    let n := nat_of_ascii c in
    let lo := if is_upper c then ascii_of_nat (n + 32) else c in
    let extra :=
      if Ascii.eqb lo "s" then
        [String (ascii_of_nat 197) (one (ascii_of_nat 191))]
      else if Ascii.eqb lo "k" then
        [String (ascii_of_nat 226)
           (String (ascii_of_nat 132) (one (ascii_of_nat 170)))]
      else [] in
    if is_lower lo
    then one lo :: one (ascii_of_nat (nat_of_ascii lo - 32)) :: extra
    else [one c].

(** Characters with a meaning of their own, outside the fragment
    unless they appear in one of the forms [parse] knows. *)
Definition is_meta (c : ascii) : bool :=
  existsb (Ascii.eqb c)
    ["\"; "."; "+"; "*"; "?"; "("; ")"; "|"; "["; "]"; "{"; "}"; "^"; "$"]%char.

Fixpoint parse (fold : bool) (depth : nat) (s : string) : option Regexp :=
  match s with
  | EmptyString => if (depth =? 0)%nat then Some [] else None
  | String "[" (String "^" (String c (String "]" (String "+" rest)))) =>
      if Ascii.eqb c "]" || Ascii.eqb c "\" then None
      else option_map (cons (PlusNot c)) (parse fold depth rest)
  | String "(" rest =>
      if (depth =? 0)%nat
      then option_map (cons CapOpen) (parse fold 1 rest)
      else None
  | String ")" rest =>
      if (depth =? 1)%nat
      then option_map (cons CapClose) (parse fold 0 rest)
      else None
  | String c rest =>
      if is_meta c then None
      else option_map (cons (Lit (lit_alts fold c))) (parse fold depth rest)
  end.

(** [regexp.MustCompile]; [None] stands for its panic. *)
Definition MustCompile (re : string) : option Regexp :=
  match re with
  | String "(" (String "?" (String "i" (String ")" rest))) => parse true 0 rest
  | _ => parse false 0 re
  end.

(** Capture registers: where the open group started, and the text of
    the group once closed. *)
Definition caps : Type := (option string * option string)%type.

Fixpoint strip_prefix (p s : string) : option string :=
  match p, s with
  | EmptyString, _ => Some s
  | String a p', String b s' => if Ascii.eqb a b then strip_prefix p' s' else None
  | String _ _, EmptyString => None
  end.

Fixpoint first_alt (alts : list string) (s : string) : option string :=
  match alts with
  | [] => None
  | a :: alts' =>
      match strip_prefix a s with
      | Some rest => Some rest
      | None => first_alt alts' s
      end
  end.

(** The first [n] bytes of [s]. *)
Fixpoint take_str (n : nat) (s : string) : string :=
  match n, s with
  | S n', String a s' => String a (take_str n' s')
  | _, _ => EmptyString
  end.

(** The text between the suffix [from] and its later suffix [to]. *)
Definition between (from to : string) : string :=
  take_str (String.length from - String.length to) from.

(** Anchored backtracking match of [p] at the head of [s]: the
    remaining input and the capture registers of the first success. *)
Fixpoint run (p : Regexp) : string -> caps -> option (string * caps) :=
  match p with
  | [] => fun s st => Some (s, st)
  | Lit alts :: p' =>
      fun s st =>
        match first_alt alts s with
        | Some rest => run p' rest st
        | None => None
        end
  | PlusNot c :: p' =>
      fix more (s : string) (st : caps) {struct s} : option (string * caps) :=
        match s with
        | EmptyString => None
        | String a s' =>
            if Ascii.eqb a c then None
            else
              match more s' st with
              | Some r => Some r
              | None => run p' s' st
              end
        end
  | CapOpen :: p' => fun s st => run p' s (Some s, snd st)
  | CapClose :: p' =>
      fun s st =>
        match fst st with
        | Some from => run p' s (None, Some (between from s))
        | None => run p' s st
        end
  end.

Definition has_group (p : Regexp) : bool :=
  existsb (fun n => match n with CapOpen => true | _ => false end) p.

(** The result slice for a match that started at [s]. *)
Definition submatches (p : Regexp) (s : string) (r : string * caps) : list string :=
  between s (fst r) ::
  (if has_group p then [default EmptyString (snd (snd r))] else []).

(** [Regexp.FindStringSubmatch]: the leftmost match and its group,
    or the nil slice. *)
Fixpoint FindStringSubmatch (p : Regexp) (s : string) : list string :=
  match run p s (None, None) with
  | Some r => submatches p s r
  | None =>
      match s with
      | EmptyString => []
      | String _ s' => FindStringSubmatch p s'
      end
  end.

End regexp.

(* ===================================================================== *)
(** ** parser.go: fetching, decoding and enrichment extraction *)
(* ===================================================================== *)

(** What one GET through [http.DefaultClient] meets.  The 60 second
    deadline of the request context shows up as an error of [Do] or of
    the body read. *)
Record Response := mkResponse {
  StatusCode : Z;
  ReadAll : string * option error     (* io.ReadAll(resp.Body) *)
}.

Record Network := mkNetwork {
  NewRequest : string -> option error;   (* http.NewRequestWithContext(ctx, "GET", url, nil) *)
  Do : string -> Response + error        (* http.DefaultClient.Do(req) *)
}.

Definition StatusOK : Z := 200.

(** [fmt.Sprintf("%d", n)] *)
Definition itoa (n : Z) : string := pretty n.

Definition getContents (net : Network) (url : string) : string * option error :=
  match NewRequest net url with
  | Some err => (EmptyString, Some (wrapError "failed to create request: " err))
  | None =>
      match Do net url with
      | inr err => (EmptyString, Some (wrapError "failed to get feed: " err))
      | inl resp =>
          if negb (StatusCode resp =? StatusOK)
          then (EmptyString,
                Some (errorString ("unexpected status code: " ++ itoa (StatusCode resp))))
          else
            match ReadAll resp with
            | (_, Some err) => (EmptyString, Some (wrapError "failed to read body: " err))
            | (body, None) => (body, None)
            end
      end
  end.

(** The double quote as a one-byte string, for the quotes inside the
    patterns. *)
Definition dquote : string := String (ascii_of_nat 34) EmptyString.

(** [enrichmentTable] is a Go map; a [range] over it visits its entries
    in an order the runtime picks anew each time. *)
Definition enrichmentTable : gmap string string :=
  {[ "description" :=
       "(?i)<meta[^>]+name=" ++ dquote ++ "description" ++ dquote ++
       "[^>]+content=" ++ dquote ++ "([^" ++ dquote ++ "]+)" ++ dquote;
     "image" :=
       "(?i)<meta[^>]+property=" ++ dquote ++ "og:image" ++ dquote ++
       "[^>]+content=" ++ dquote ++ "([^" ++ dquote ++ "]+)" ++ dquote ]}%string.

(** An order in which [range enrichmentTable] may deliver the entries. *)
Definition range_order (order : list (string * string)) : Prop :=
  order ≡ₚ map_to_list enrichmentTable.

(** The body of the loop of [extractEnrichments]; [None] is the panic
    of [MustCompile]. *)
Definition extract_step (html : string) (enrichments : gmap string string)
    (entry : string * string) : option (gmap string string) :=
  match regexp.MustCompile (snd entry) with
  | None => None
  | Some re =>
      let matches := regexp.FindStringSubmatch re html in
      if (1 <? length matches)%nat
      then Some (<[fst entry := nth 1 matches EmptyString]> enrichments)
      else Some enrichments
  end.

Fixpoint extract_range (html : string) (order : list (string * string))
    (enrichments : gmap string string) : option (gmap string string) :=
  match order with
  | [] => Some enrichments
  | entry :: rest =>
      match extract_step html enrichments entry with
      | None => None
      | Some enrichments' => extract_range html rest enrichments'
      end
  end.

(** [extractEnrichments], run with the iteration order [order]. *)
Definition extractEnrichments (order : list (string * string)) (html : string)
  : option (gmap string string * option error) :=
  match extract_range html order ∅ with
  | None => None
  | Some enrichments => Some (enrichments, None)
  end.

(** A nil map reads like the empty map. *)
Definition GetEnrichments (net : Network) (order : list (string * string))
    (link : string) : option (gmap string string * option error) :=
  match getContents net link with
  | (_, Some err) => Some (∅, Some (wrapError "failed to get enrichments: " err))
  | (body, None) =>
      match extractEnrichments order body with
      | None => None
      | Some (_, Some err) =>
          Some (∅, Some (wrapError "failed to extract enrichments: " err))
      | Some (enrichments, None) => Some (enrichments, None)
      end
  end.

(** Indexing a Go map: the zero value for an absent key. *)
Definition map_index (m : gmap string string) (k : string) : string :=
  default EmptyString (m !! k).

(** [Enrich] writes through the pointer [item]; the updated item is
    returned next to the two results. *)
Definition Enrich (net : Network) (order : list (string * string)) (item : NewsItem)
  : option (NewsItem * Z * option error) :=
  match GetEnrichments net order (Link item) with
  | None => None
  | Some (_, Some err) =>
      Some (item, 0, Some (wrapError "failed to get enrichments: " err))
  | Some (enrichments, None) =>
      Some ({| ID := ID item; Title := Title item; Link := Link item;
               Published := Published item;
               Description := map_index enrichments "description";
               Image := map_index enrichments "image" |},
            Z.of_nat (size enrichments), None)
  end.

(** The feed decoder is the gofeed library: [ParseString] yields the
    title and link of every entry, in feed order, or an error. *)
Section Decoder.

Variable ParseString : string -> list (string * string) + error.

Definition parseRSS (feedBody : string) : list NewsItem * option error :=
  match ParseString feedBody with
  | inr err => ([], Some (wrapError "failed to parse RSS feed: " err))
  | inl feed =>
      (map (fun item => {| ID := 0; Title := fst item; Link := snd item;
                           Published := 0; Description := EmptyString;
                           Image := EmptyString |}) feed,
       None)
  end.

Definition GetNews (net : Network) (RssUrl : string) : list NewsItem * option error :=
  match getContents net RssUrl with
  | (_, Some err) => ([], Some (wrapError "failed to get feed: " err))
  | (feedBody, None) =>
      match parseRSS feedBody with
      | (_, Some err) => ([], Some (wrapError "failed to parse RSS: " err))
      | (items, None) => (items, None)
      end
  end.

End Decoder.

(* ===================================================================== *)
(** ** storage.go: the news table *)
(* ===================================================================== *)

(** The database behind [Storage.db]: the rows of table [news] (column
    [link] is UNIQUE, [id] is SERIAL), the sequence, and the failures
    of the connection: [db_fault n] is the error, if any, with which the
    [n]-th statement fails before it reaches the table. *)
Record DB := mkDB {
  news : list NewsItem;
  serial : Z;
  db_calls : nat;
  db_fault : nat -> option error
}.

Definition has_link (rows : list NewsItem) (link : string) : bool :=
  existsb (fun r => String.eqb (Link r) link) rows.

Fixpoint links_unique (rows : list NewsItem) : bool :=
  match rows with
  | [] => true
  | r :: rest => negb (has_link rest (Link r)) && links_unique rest
  end.

(** [INSERT INTO news (title, link, published) VALUES ($1, $2, $3)
    RETURNING id]; a duplicate link is SQLSTATE 23505. *)
Definition insert_news (d : DB) (title link : string) (published : Z) : DB * (Z + error) :=
  let calls := S (db_calls d) in
  match db_fault d (db_calls d) with
  | Some err =>
      ({| news := news d; serial := serial d; db_calls := calls; db_fault := db_fault d |},
       inr err)
  | None =>
      let id := serial d + 1 in
      if has_link (news d) link
      then ({| news := news d; serial := id; db_calls := calls; db_fault := db_fault d |},
            inr (pqError "23505"))
      else
        ({| news := news d ++ [ {| ID := id; Title := title; Link := link;
                                   Published := published;
                                   Description := EmptyString; Image := EmptyString |} ];
            serial := id; db_calls := calls; db_fault := db_fault d |},
         inl id)
  end.

(** [SELECT id, title, link, published, description, image FROM news
    WHERE link = $1], scanned into one item. *)
Definition select_by_link (d : DB) (link : string) : DB * (NewsItem + error) :=
  let d' := {| news := news d; serial := serial d; db_calls := S (db_calls d);
               db_fault := db_fault d |} in
  match db_fault d (db_calls d) with
  | Some err => (d', inr err)
  | None =>
      match find (fun r => String.eqb (Link r) link) (news d) with
      | Some r => (d', inl r)
      | None => (d', inr sqlErrNoRows)
      end
  end.

Definition set_fields (item : NewsItem) (r : NewsItem) : NewsItem :=
  if ID r =? ID item
  then {| ID := ID r; Title := Title item; Link := Link item; Published := Published r;
          Description := Description item; Image := Image item |}
  else r.

(** [UPDATE news SET title = $1, link = $2, description = $3, image = $4
    WHERE id = $5]: the number of rows affected, or an error. *)
Definition update_news (d : DB) (item : NewsItem) : DB * (Z + error) :=
  let calls := S (db_calls d) in
  let unchanged := {| news := news d; serial := serial d; db_calls := calls;
                      db_fault := db_fault d |} in
  match db_fault d (db_calls d) with
  | Some err => (unchanged, inr err)
  | None =>
      let rows := map (set_fields item) (news d) in
      if links_unique rows
      then ({| news := rows; serial := serial d; db_calls := calls; db_fault := db_fault d |},
            inl (Z.of_nat (length (filter (fun r => ID r =? ID item) (news d)))))
      else (unchanged, inr (pqError "23505"))
  end.

(** [CreateNewsItem]; [item] is a pointer, [None] being nil.  On success
    the identifier is scanned into the pointee. *)
Definition CreateNewsItem (d : DB) (item : option NewsItem)
  : DB * option NewsItem * option error :=
  match item with
  | None => (d, item, Some (errorString "item is empty"))
  | Some it =>
      if String.eqb (Title it) EmptyString || String.eqb (Link it) EmptyString
      then (d, item, Some (errorString "item is empty"))
      else
        match insert_news d (Title it) (Link it) (Published it) with
        | (d', inl id) =>
            (d', Some {| ID := id; Title := Title it; Link := Link it;
                         Published := Published it; Description := Description it;
                         Image := Image it |}, None)
        | (d', inr err) =>
            match err with
            | pqError code =>
                if String.eqb code "23505" then (d', item, Some ErrAlreadyExists)
                else (d', item, Some err)
            | _ => (d', item, Some err)
            end
        end
  end.

Definition GetNewsItem (d : DB) (link : string) : DB * option NewsItem * option error :=
  match select_by_link d link with
  | (d', inr err) =>
      if errors_Is err sqlErrNoRows
      then (d', None, Some ErrNotFound)
      else (d', None, Some err)
  | (d', inl item) => (d', Some item, None)
  end.

(** [SaveNewsItem]: [RowsAffected] of the driver never fails. *)
Definition SaveNewsItem (d : DB) (item : NewsItem) : DB * option error :=
  match update_news d item with
  | (d', inr err) => (d', Some err)
  | (d', inl affected) =>
      if affected =? 0 then (d', Some ErrNotFound) else (d', None)
  end.

(* ===================================================================== *)
(** ** mq.go: the queue *)
(* ===================================================================== *)

(** The broker behind [Mq.ch]: the messages accepted so far, oldest
    first, and the failures of the channel: [mq_fault n] is the error,
    if any, of the [n]-th publish. *)
Record MQ := mkMQ {
  queue : list string;
  mq_calls : nat;
  mq_fault : nat -> option error
}.

Definition Publish (q : MQ) (msg : string) : MQ * option error :=
  match mq_fault q (mq_calls q) with
  | Some err =>
      ({| queue := queue q; mq_calls := S (mq_calls q); mq_fault := mq_fault q |},
       Some (wrapError "[ERROR] failed to publish a message " err))
  | None =>
      ({| queue := queue q ++ [msg]; mq_calls := S (mq_calls q); mq_fault := mq_fault q |},
       None)
  end.

(* ===================================================================== *)
(** ** service.go: the parsing job and the enrichment job *)
(* ===================================================================== *)

(** The calls a job makes to its collaborators, in the order made. *)
Inductive event : Type :=
| EvGetNews (err : option error)
| EvCreate (item : NewsItem) (err : option error)
| EvPublish (msg : string) (err : option error).

(** What [Service] reaches through its pointers, and the record of the
    calls made so far. *)
Record World := mkWorld {
  db : DB;
  mq : MQ;
  trace : list event
}.

(** What the surroundings do during one turn of the loop of
    [ParsingJob]: how the network answers the fetch, and whether
    [ctx.Done()] is the case that [select] takes afterwards. *)
Record Tick := mkTick {
  net : Network;
  cancelled : bool
}.

(** How one turn of the loop ends: with [continue] and the value of
    [retry], or with [return]. *)
Inductive turn : Type :=
| Continue (retry : Z) (w : World)
| Return (retry : Z) (w : World).

Definition record (w : World) (e : event) : World :=
  {| db := db w; mq := mq w; trace := trace w ++ [e] |}.

(** The loop [for { ... }] over the turns the surroundings have granted
    so far; [false] says the job has not returned yet. *)
Fixpoint job_loop (body : Z -> World -> Tick -> turn) (retry : Z) (w : World)
    (ticks : list Tick) : World * Z * bool :=
  match ticks with
  | [] => (w, retry, false)
  | t :: rest =>
      match body retry w t with
      | Return retry' w' => (w', retry', true)
      | Continue retry' w' => job_loop body retry' w' rest
      end
  end.

(** The revision of service.go with the API server and
    [EnrichNewsItem]. *)
Module part_004.
Section Service.

Variable ParseString : string -> list (string * string) + error.
Variable RssUrl : string.

(** The body of [for _, item := range items]. *)
Definition save_item (acc : World * Z * Z) (item : NewsItem) : World * Z * Z :=
  let '(w, saved, skipped) := acc in
  let '(d', item', err) := CreateNewsItem (db w) (Some item) in
  let w1 := record {| db := d'; mq := mq w; trace := trace w |} (EvCreate item err) in
  match err with
  | Some e =>
      if errors_Is e ErrAlreadyExists
      then (w1, saved, GoInt.add skipped 1)
      else (w1, saved, skipped)
  | None =>
      let saved := GoInt.add saved 1 in
      let msg := Link (default item item') in
      let '(q', perr) := Publish (mq w1) msg in
      (record {| db := db w1; mq := q'; trace := trace w1 |} (EvPublish msg perr),
       saved, skipped)
  end.

Definition save_items (items : list NewsItem) (w : World) : World * Z * Z :=
  fold_left save_item items (w, 0, 0).

Definition limit : Z := 3.

Definition turn_body (retry : Z) (w : World) (t : Tick) : turn :=
  let '(items, err) := GetNews ParseString (net t) RssUrl in
  let w := record w (EvGetNews err) in
  match err with
  | Some _ =>
      if retry >? limit then Return retry w
      else
        let retry := GoInt.add retry 1 in
        if cancelled t then Return retry w else Continue retry w
  | None =>
      let retry := 0 in
      let '(w, _, _) := save_items items w in
      if cancelled t then Return retry w else Continue retry w
  end.

Definition ParsingJob (ticks : list Tick) (w : World) : World * Z * bool :=
  job_loop turn_body 0 w ticks.

(** [EnrichNewsItem]; [None] is a panic on the way. *)
Definition EnrichNewsItem (n : Network) (order : list (string * string))
    (d : DB) (link : string) : option (DB * option error) :=
  match GetNewsItem d link with
  | (d1, _, Some err) => Some (d1, Some (wrapError "failed to get item from DB: " err))
  | (d1, None, None) => None
  | (d1, Some newsItem, None) =>
      match Enrich n order newsItem with
      | None => None
      | Some (_, _, Some err) =>
          Some (d1, Some (wrapError "failed to enrich news: " err))
      | Some (newsItem, _, None) =>
          match SaveNewsItem d1 newsItem with
          | (d2, Some err) => Some (d2, Some (wrapError "failed to save item: " err))
          | (d2, None) => Some (d2, None)
          end
      end
  end.

End Service.
End part_004.

(** The revision in service.go proper.  Its [Storage.CreateNews] is the
    earlier name of [CreateNewsItem]; no revision of storage.go at hand
    declares it, so it is left open. *)
Module service_go.
Section Service.

Variable ParseString : string -> list (string * string) + error.
Variable RssUrl : string.
Variable CreateNews : DB -> option NewsItem -> DB * option NewsItem * option error.

Definition save_item (acc : World * Z * Z) (item : NewsItem) : World * Z * Z :=
  let '(w, saved, skipped) := acc in
  let '(d', item', err) := CreateNews (db w) (Some item) in
  let w1 := record {| db := d'; mq := mq w; trace := trace w |} (EvCreate item err) in
  match err with
  | Some e =>
      if errors_Is e ErrAlreadyExists
      then (w1, saved, GoInt.add skipped 1)
      else (w1, saved, skipped)
  | None =>
      let saved := GoInt.add saved 1 in
      let msg := Link (default item item') in
      let '(q', perr) := Publish (mq w1) msg in
      (record {| db := db w1; mq := q'; trace := trace w1 |} (EvPublish msg perr),
       saved, skipped)
  end.

Definition save_items (items : list NewsItem) (w : World) : World * Z * Z :=
  fold_left save_item items (w, 0, 0).

Definition limit : Z := 3.

Definition turn_body (retry : Z) (w : World) (t : Tick) : turn :=
  let '(items, err) := GetNews ParseString (net t) RssUrl in
  let w := record w (EvGetNews err) in
  match err with
  | Some _ =>
      let retry := GoInt.add retry 1 in
      if retry >? limit then Return retry w
      else if cancelled t then Return retry w else Continue retry w
  | None =>
      let retry := 0 in
      let '(w, _, _) := save_items items w in
      if cancelled t then Return retry w else Continue retry w
  end.

Definition ParsingJob (ticks : list Tick) (w : World) : World * Z * bool :=
  job_loop turn_body 0 w ticks.

End Service.
End service_go.

(* ===================================================================== *)
(** ** storage.go: reading the table *)
(* ===================================================================== *)

(** The values of a SERIAL column: 32-bit integers. *)
Definition int4 (z : Z) : bool := (-2147483648 <=? z) && (z <=? 2147483647).

(** [SELECT id, title, link, published, description, image FROM news
    WHERE id = $1], scanned into one item.  The parameter takes the
    type of the column; a value beyond it is SQLSTATE 22003. *)
Definition select_by_id (d : DB) (id : Z) : DB * (NewsItem + error) :=
  let d' := {| news := news d; serial := serial d; db_calls := S (db_calls d);
               db_fault := db_fault d |} in
  match db_fault d (db_calls d) with
  | Some err => (d', inr err)
  | None =>
      if negb (int4 id) then (d', inr (pqError "22003"))
      else
        match find (fun r => ID r =? id) (news d) with
        | Some r => (d', inl r)
        | None => (d', inr sqlErrNoRows)
        end
  end.

Definition GetSingleNews (d : DB) (id : Z) : DB * option NewsItem * option error :=
  match select_by_id d id with
  | (d', inr err) =>
      if errors_Is err sqlErrNoRows
      then (d', None, Some ErrNotFound)
      else (d', None, Some err)
  | (d', inl item) => (d', Some item, None)
  end.

(** The list query of [Storage.GetNews] sorts by [published], newest
    first.  SQL leaves the order of rows with equal keys to the
    executor, so the sort is a parameter; the properties say what they
    need of it. *)
Module storage.
Section Query.

Variable order_by_published : list NewsItem -> list NewsItem.

(** The query of [GetNews]: a window count over the whole table, then
    the columns of the row, [ORDER BY published DESC LIMIT $1 OFFSET
    $2].  Every row carries the number of rows of the whole table; a
    negative LIMIT or OFFSET is SQLSTATE 2201W or 2201X. *)
Definition select_page (d : DB) (lim off : Z) : DB * (list (Z * NewsItem) + error) :=
  let d' := {| news := news d; serial := serial d; db_calls := S (db_calls d);
               db_fault := db_fault d |} in
  match db_fault d (db_calls d) with
  | Some err => (d', inr err)
  | None =>
      if lim <? 0 then (d', inr (pqError "2201W"))
      else if off <? 0 then (d', inr (pqError "2201X"))
      else
        let count := Z.of_nat (length (news d)) in
        (d', inl (map (fun r => (count, r))
                      (take (Z.to_nat lim)
                            (drop (Z.to_nat off) (order_by_published (news d))))))
  end.

(** The loop [for rows.Next()]: the last scan leaves its count in
    [totalRecords]. *)
Definition scan_rows (rows : list (Z * NewsItem)) : Z * list NewsItem :=
  fold_left (fun acc row => (row.1, acc.2 ++ [row.2])) rows (0, []).

Definition GetNews (d : DB) (filters : Filters)
  : DB * list NewsItem * Metadata * option error :=
  match select_page d (limit filters) (offset filters) with
  | (d', inr err) => (d', [], zeroMetadata, Some err)
  | (d', inl rows) =>
      let '(totalRecords, items) := scan_rows rows in
      (d', items, calculateMetadata totalRecords (Page filters) (PageSize filters), None)
  end.

End Query.
End storage.

(* ===================================================================== *)
(** ** strconv.Atoi *)
(* ===================================================================== *)

(** [strconv.Atoi] on a 64-bit platform: an optional sign and at least
    one decimal digit.  A syntax error yields 0; a value outside [int]
    yields the nearest bound and a range error, and the scan stops at
    the digit that passes 2^64 - 1. *)
Module strconv.

Definition is_digit (c : ascii) : bool :=
  let n := nat_of_ascii c in (48 <=? n)%nat && (n <=? 57)%nat.

Definition digit (c : ascii) : Z := Z.of_nat (nat_of_ascii c) - 48.

Inductive scan : Type :=
| Value (n : Z)
| Syntax
| Range.

(** The digit loop of [ParseUint]. *)
Fixpoint digits (s : string) (n : Z) : scan :=
  match s with
  | EmptyString => Value n
  | String c s' =>
      if is_digit c then
        let n' := n * 10 + digit c in
        if n' >? 18446744073709551615 then Range else digits s' n'
      else Syntax
  end.

Definition syntaxError (s : string) : error :=
  errorString ("strconv.Atoi: parsing " ++ dquote ++ s ++ dquote ++ ": invalid syntax").

Definition rangeError (s : string) : error :=
  errorString ("strconv.Atoi: parsing " ++ dquote ++ s ++ dquote ++ ": value out of range").

Definition Atoi (s : string) : Z * option error :=
  let '(neg, body) :=
    match s with
    | String "-" rest => (true, rest)
    | String "+" rest => (false, rest)
    | _ => (false, s)
    end in
  match body with
  | EmptyString => (0, Some (syntaxError s))
  | _ =>
      match digits body 0 with
      | Syntax => (0, Some (syntaxError s))
      | Range =>
          (if neg then GoInt.MinInt else GoInt.MaxInt, Some (rangeError s))
      | Value un =>
          if negb neg && (GoInt.MaxInt <? un) then (GoInt.MaxInt, Some (rangeError s))
          else if neg && (- GoInt.MinInt <? un) then (GoInt.MinInt, Some (rangeError s))
          else (if neg then - un else un, None)
      end
  end.

End strconv.

(* ===================================================================== *)
(** ** api.go: the read API and the web handlers *)
(* ===================================================================== *)

(** What a handler has done with its [http.ResponseWriter]: written a
    bare status, or executed one of the two templates on its data. *)
Inductive response : Type :=
| WriteHeader (code : Z)
| IndexPage (news : list NewsItem) (meta : Metadata)
| ArticlePage (item : option NewsItem).

Definition StatusBadRequest : Z := 400.
Definition StatusNotFound : Z := 404.
Definition StatusInternalServerError : Z := 500.

(** The revision of api.go that answers 404 for a missing article. *)
Module api.
Section Server.

Variable order_by_published : list NewsItem -> list NewsItem.

Definition listNews (d : DB) (filters : Filters)
  : DB * list NewsItem * Metadata * option error :=
  let filters := validate filters defaultFilters in
  match storage.GetNews order_by_published d filters with
  | (d', _, _, Some err) => (d', [], zeroMetadata, Some err)
  | (d', items, meta, None) => (d', items, meta, None)
  end.

Definition getSingleNews (d : DB) (id : Z) : DB * option NewsItem * option error :=
  match GetSingleNews d id with
  | (d', _, Some err) => (d', None, Some err)
  | (d', item, None) => (d', item, None)
  end.

(** [query] is [r.URL.Query().Get]: the first value of a parameter, the
    empty string when it is absent. *)
Definition indexHandler (d : DB) (query : string -> string) : DB * response :=
  let filters :=
    {| Page := (strconv.Atoi (query "page")).1;
       PageSize := (strconv.Atoi (query "pagesize")).1 |} in
  let filters := validate filters defaultFilters in
  match listNews d filters with
  | (d', _, _, Some _) => (d', WriteHeader StatusInternalServerError)
  | (d', news, meta, None) => (d', IndexPage news meta)
  end.

Definition articleHandler (d : DB) (query : string -> string) : DB * response :=
  match strconv.Atoi (query "id") with
  | (_, Some _) => (d, WriteHeader StatusBadRequest)
  | (id, None) =>
      match getSingleNews d id with
      | (d', _, Some err) =>
          if errors_Is err ErrNotFound
          then (d', WriteHeader StatusNotFound)
          else (d', WriteHeader StatusInternalServerError)
      | (d', item, None) => (d', ArticlePage item)
      end
  end.

End Server.
End api.

(* ===================================================================== *)
(** ** service.go: the enrichment job *)
(* ===================================================================== *)





(* ===================================================================== *)
(** ** Vocabulary of the properties *)
(* ===================================================================== *)

(** The second half of [binary_round_aux]: bringing a rounded mantissa
    back into 53 bits. *)
Definition finish (s : bool) (m e : Z) : spec_float :=
  let '(mrs, e') := shr_fexp 53 1024 m e loc_Exact in
  match shr_m mrs with
  | Z0 => S754_zero s
  | Zpos m' => if e' <=? 1024 - 53 then S754_finite s m' e' else S754_infinity s
  | Zneg _ => S754_nan
  end.

(** The integer that [Ceil] and the conversion back yield. *)
Definition ceil_of (M E : Z) : Z :=
  if 0 <=? E then M * 2 ^ E else - ((- M) / 2 ^ (- E)).

(** The rows that page [filters] of the ordered table holds. *)
Definition page_rows (order_by_published : list NewsItem -> list NewsItem)
    (d : DB) (filters : Filters) : list NewsItem :=
  take (Z.to_nat (limit filters))
       (drop (Z.to_nat (offset filters)) (order_by_published (news d))).

(** The database after one more statement. *)
Definition after_statement (d : DB) : DB :=
  {| news := news d; serial := serial d; db_calls := S (db_calls d);
     db_fault := db_fault d |}.

(** Filters as [validate] leaves them, whose offset fits into [int]. *)
Definition normalized (f : Filters) : Prop :=
  Filters_ok f /\ 1 <= Page f /\ 1 <= PageSize f /\
  (Page f - 1) * PageSize f <= GoInt.MaxInt.

(** A table as the schema keeps it: links are unique, identifiers are
    unique and were drawn from the sequence. *)
Definition DB_ok (d : DB) : Prop :=
  links_unique (news d) = true /\
  NoDup (map ID (news d)) /\
  (forall r, r ∈ news d -> ID r <= serial d).

(** A sort that stands for the executor's: merge sort, newest first. *)
Definition newest_first (a b : NewsItem) : Prop := Published b <= Published a.

#[global] Instance newest_first_dec : RelDecision newest_first.
Proof. intros a b. unfold newest_first. apply _. Defined.

Definition example_order : list NewsItem -> list NewsItem :=
  merge_sort newest_first.

Definition example_table : DB :=
  {| news := [ {| ID := 1; Title := "One"; Link := "http://example.com/1"; Published := 10;
                  Description := "first"; Image := "1.jpg" |};
               {| ID := 2; Title := "Two"; Link := "http://example.com/2"; Published := 30;
                  Description := EmptyString; Image := EmptyString |};
               {| ID := 3; Title := "Three"; Link := "http://example.com/3"; Published := 20;
                  Description := "third"; Image := "3.jpg" |} ];
     serial := 3; db_calls := 0; db_fault := fun _ => None |}.

(** A program without group marks. *)
Definition cap_free (p : regexp.Regexp) : bool :=
  forallb (fun n => match n with
                    | regexp.CapOpen | regexp.CapClose => false
                    | _ => true
                    end) p.

(** The shape of the table's patterns: one group, around a repetition. *)
Definition grouped (p : regexp.Regexp) : Prop :=
  exists pre c post,
    p = pre ++ regexp.CapOpen :: regexp.PlusNot c :: regexp.CapClose :: post /\
    cap_free pre = true /\ cap_free post = true.

(** The parts of a program of that shape. *)
Fixpoint split_group (p : regexp.Regexp)
  : option (regexp.Regexp * ascii * regexp.Regexp) :=
  match p with
  | [] => None
  | regexp.CapOpen :: regexp.PlusNot c :: regexp.CapClose :: post => Some ([], c, post)
  | n :: p' =>
      match split_group p' with
      | Some (pre, c, post) => Some (n :: pre, c, post)
      | None => None
      end
  end.

(** An enrichment map with known keys and no empty value. *)
Definition well_formed (m : gmap string string) : Prop :=
  forall k v, m !! k = Some v ->
              (k = "description" \/ k = "image")%string /\ v <> EmptyString.

(** A page that carries a description and no image, met by a healthy
    network, and a table with one enriched row. *)
Definition example_html : string :=
  ("<meta name=" ++ dquote ++ "description" ++ dquote ++
   " content=" ++ dquote ++ "fresh" ++ dquote ++ ">")%string.

Definition example_html_image : string :=
  ("<meta property=" ++ dquote ++ "og:image" ++ dquote ++
   " content=" ++ dquote ++ "a.jpg" ++ dquote ++ ">")%string.

(** The bodies of [Test_ExtractEnrichments]. *)
Definition meta_description : string :=
  ("<meta name=" ++ dquote ++ "description" ++ dquote ++
   " content=" ++ dquote ++ "test description" ++ dquote ++ ">")%string.

Definition meta_image : string :=
  ("<meta property=" ++ dquote ++ "og:image" ++ dquote ++
   " content=" ++ dquote ++ "http://example.com/image.jpg" ++ dquote ++ ">")%string.

Definition test_bodies : list (string * gmap string string) :=
  [ (EmptyString, ∅);
    ("<html></html>", ∅);
    ("<html> " ++ meta_description ++ " </html>",
     {[ "description" := "test description" ]});
    ("<html> " ++ meta_image ++ " </html>",
     {[ "image" := "http://example.com/image.jpg" ]});
    ("<html> " ++ meta_description ++ " " ++ meta_image ++ " </html>",
     {[ "description" := "test description";
        "image" := "http://example.com/image.jpg" ]}) ]%string.

Definition example_page : Network :=
  {| NewRequest := fun _ => None;
     Do := fun _ => inl {| StatusCode := 200;
                           ReadAll := (example_html, None) |} |}.

Definition example_db : DB :=
  {| news := [ {| ID := 1; Title := "Old story"; Link := "http://example.com/1";
                  Published := 0; Description := "old text"; Image := "old.jpg" |} ];
     serial := 1; db_calls := 0; db_fault := fun _ => None |}.

Definition example_db_enriched : DB :=
  {| news := [ {| ID := 1; Title := "Old story"; Link := "http://example.com/1";
                  Published := 0; Description := "fresh"; Image := EmptyString |} ];
     serial := 1; db_calls := 2; db_fault := fun _ => None |}.







(** Example data: a table that already holds one link, a healthy
    queue, and two candidates of which the first is a duplicate. *)
Definition example_row : NewsItem :=
  {| ID := 1; Title := "Old story"; Link := "http://example.com/1"; Published := 0;
     Description := "old text"; Image := "old.jpg" |}.

Definition example_world : World :=
  {| db := {| news := [example_row]; serial := 1; db_calls := 0; db_fault := fun _ => None |};
     mq := {| queue := []; mq_calls := 0; mq_fault := fun _ => None |};
     trace := [] |}.

Definition example_items : list NewsItem :=
  [ {| ID := 0; Title := "Old story"; Link := "http://example.com/1"; Published := 0;
       Description := EmptyString; Image := EmptyString |};
    {| ID := 0; Title := "New story"; Link := "http://example.com/2"; Published := 0;
       Description := EmptyString; Image := EmptyString |} ].

(** The fetch attempts of a record, [true] for a failed one. *)
Definition attempts (evs : list event) : list bool :=
  omap (fun e => match e with
                 | EvGetNews (Some _) => Some true
                 | EvGetNews None => Some false
                 | _ => None
                 end) evs.

(** Failures in a row: the length of the run that is still open, and of
    the longest run so far. *)
Definition run_step (st : nat * nat) (failed : bool) : nat * nat :=
  if failed then (S st.1, Nat.max st.2 (S st.1)) else (0%nat, st.2).

Definition runs (l : list bool) : nat * nat := fold_left run_step l (0%nat, 0%nat).

Definition longest_failing_run (evs : list event) : nat := (runs (attempts evs)).2.

(** While a job runs, [retry] is the number of failures in a row so far
    and is at most [bound], as is every earlier run of failures. *)
Definition job_inv (bound : Z) (retry : Z) (w : World) : Prop :=
  exists best, runs (attempts (trace w)) = (Z.to_nat retry, best) /\
               0 <= retry <= bound /\ (best <= Z.to_nat bound)%nat.

(** A turn in which the feed cannot be reached and nobody cancels. *)
Definition failing_tick : Tick :=
  {| net := {| NewRequest := fun _ => None;
               Do := fun _ => inr (errorString "connection refused") |};
     cancelled := false |}.

Definition empty_world : World :=
  {| db := {| news := []; serial := 0; db_calls := 0; db_fault := fun _ => None |};
     mq := {| queue := []; mq_calls := 0; mq_fault := fun _ => None |};
     trace := [] |}.

(** The filters that the index handler makes of a query. *)
Definition query_filters (query : string -> string) : Filters :=
  validate {| Page := (strconv.Atoi (query "page")).1;
              PageSize := (strconv.Atoi (query "pagesize")).1 |} defaultFilters.

(** The row that a successful insert appends. *)
Definition new_row (d : DB) (item : NewsItem) : NewsItem :=
  {| ID := serial d + 1; Title := Title item; Link := Link item;
     Published := Published item; Description := EmptyString; Image := EmptyString |}.

(** Whether the byte [c] occurs in [s]. *)
Fixpoint has_byte (c : ascii) (s : string) : bool :=
  match s with
  | EmptyString => false
  | String a s' => Ascii.eqb a c || has_byte c s'
  end.

(** The shape of the table's patterns, with the quotes around the
    group. *)
Definition quoted_group (p : regexp.Regexp) : Prop :=
  exists pre post,
    p = pre ++ regexp.Lit [dquote] :: regexp.CapOpen :: regexp.PlusNot (ascii_of_nat 34)
               :: regexp.CapClose :: regexp.Lit [dquote] :: post /\
    cap_free pre = true /\ cap_free post = true.

(** What the extractor may store for a page: a text without a double
    quote that stands between two double quotes of the page. *)
Definition attribute_value (html v : string) : Prop :=
  has_byte (ascii_of_nat 34) v = false /\
  exists l r, html = (l ++ dquote ++ v ++ dquote ++ r)%string.


(** Every message in the queue is the link of a stored row. *)
Definition queue_backed (w : World) : Prop :=
  forall m, m ∈ queue (mq w) -> m ∈ map Link (news (db w)).

(** The rows that a run of fresh items becomes, the first one stored
    under [id]. *)
Fixpoint stored_as (id : Z) (items : list NewsItem) : list NewsItem :=
  match items with
  | [] => []
  | it :: rest =>
      {| ID := id; Title := Title it; Link := Link it; Published := Published it;
         Description := EmptyString; Image := EmptyString |} :: stored_as (id + 1) rest
  end.

(** An item that [CreateNewsItem] does not refuse outright. *)
Definition filled (it : NewsItem) : Prop :=
  Title it <> EmptyString /\ Link it <> EmptyString.

(** The job's view of the world is safe: the table is as the schema
    wants it and the queue names stored rows only. *)
Definition world_ok (w : World) : Prop := DB_ok (db w) /\ queue_backed w.

(** [w'] comes after [w]: rows and messages were appended only. *)
Definition extends (w w' : World) : Prop :=
  news (db w) `prefix_of` news (db w') /\ queue (mq w) `prefix_of` queue (mq w').


Definition example_old_item : NewsItem :=
  {| ID := 0; Title := "Old story"; Link := "http://example.com/1"; Published := 0;
     Description := EmptyString; Image := EmptyString |}.

Definition example_edit : NewsItem :=
  {| ID := 1; Title := "Old story"; Link := "http://example.com/1"; Published := 5;
     Description := "fresh"; Image := "new.jpg" |}.

Definition example_stranger : NewsItem :=
  {| ID := 7; Title := "Nobody"; Link := "http://example.com/7"; Published := 0;
     Description := EmptyString; Image := EmptyString |}.

Definition example_query (key : string) : string :=
  if String.eqb key "id" then "2"
  else if String.eqb key "page" then "2"
  else if String.eqb key "pagesize" then "x"
  else EmptyString.


(** A decoder that finds the two example items in every body, the
    address of the feed, and a turn on which the feed is served. *)
Definition example_decoder (feedBody : string) : list (string * string) + error :=
  inl (map (fun it => (Title it, Link it)) example_items).

Definition example_url : string := "http://example.com/rss".

Definition example_tick : Tick := {| net := example_page; cancelled := false |}.

Definition cancelled_tick : Tick :=
  {| net := net failing_tick; cancelled := true |}.

(* ===================================================================== *)
(** * Properties *)
(* ===================================================================== *)

(** ** Machine integers *)

Lemma MaxInt_value : GoInt.MaxInt = 9223372036854775807.
Proof. reflexivity. Qed.

Lemma MinInt_value : GoInt.MinInt = -9223372036854775808.
Proof. reflexivity. Qed.

Lemma wrap_in_range (z : Z) : GoInt.in_range (GoInt.wrap z).
Proof.
  unfold GoInt.in_range, GoInt.wrap, GoInt.MinInt, GoInt.MaxInt, GoInt.modulus, GoInt.bits.
  pose proof (Z.mod_pos_bound (z + 2 ^ (64 - 1)) (2 ^ 64) ltac:(lia)).
  change (2 ^ (64 - 1)) with 9223372036854775808 in *.
  change (2 ^ 64) with 18446744073709551616 in *.
  lia.
Qed.

Lemma wrap_small (z : Z) : GoInt.in_range z -> GoInt.wrap z = z.
Proof.
  unfold GoInt.in_range, GoInt.wrap, GoInt.MinInt, GoInt.MaxInt, GoInt.modulus, GoInt.bits.
  change (2 ^ (64 - 1)) with 9223372036854775808.
  change (2 ^ 64) with 18446744073709551616.
  intros H. rewrite Z.mod_small; lia.
Qed.

(** ** Filters *)

(** C1, as stated, does not hold: a page below 1 next to a valid page
    size keeps the page size. *)
Lemma validate_default_counterexample :
  ~ (forall f : Filters,
        Filters_ok f -> Page f < 1 \/ PageSize f < 1 ->
        validate f defaultFilters = defaultFilters).
Proof.
  intros H.
  specialize (H {| Page := 0; PageSize := 10 |}).
  assert (Hok : Filters_ok {| Page := 0; PageSize := 10 |}).
  { split; split; simpl; discriminate. }
  specialize (H Hok (or_introl eq_refl)).
  discriminate H.
Qed.

Lemma validate_fields (f : Filters) :
  validate f defaultFilters =
  {| Page := if Page f <? 1 then 1 else Page f;
     PageSize := if PageSize f <? 1 then 5 else PageSize f |}.
Proof.
  destruct f as [p s]; unfold validate; simpl.
  destruct (p <? 1); simpl; destruct (s <? 1); reflexivity.
Qed.

(** C1 (amended): normalisation treats the two fields apart.  A field
    below 1 is replaced by its default (page 1, size 5) and a field that
    is at least 1 is kept; the result is the default Filters when both
    fields are below 1. *)
Theorem validate_invalid_fields (f : Filters) :
  Page f < 1 \/ PageSize f < 1 ->
  Page (validate f defaultFilters) = (if Page f <? 1 then 1 else Page f) /\
  PageSize (validate f defaultFilters) = (if PageSize f <? 1 then 5 else PageSize f) /\
  (Page f < 1 /\ PageSize f < 1 -> validate f defaultFilters = defaultFilters).
Proof.
  intros _. rewrite validate_fields; simpl.
  repeat split.
  intros [Hp Hs].
  apply Z.ltb_lt in Hp, Hs. rewrite Hp, Hs. reflexivity.
Qed.

Lemma validate_invalid_fields_witness :
  Page (validate {| Page := 0; PageSize := 10 |} defaultFilters) = 1 /\
  PageSize (validate {| Page := 0; PageSize := 10 |} defaultFilters) = 10.
Proof.
  destruct (validate_invalid_fields {| Page := 0; PageSize := 10 |}) as (Hp & Hs & _).
  - left. reflexivity.
  - split; [exact Hp | exact Hs].
Defined.

Lemma validate_normalizes (f : Filters) :
  1 <= Page (validate f defaultFilters) /\ 1 <= PageSize (validate f defaultFilters).
Proof.
  rewrite validate_fields; simpl.
  destruct (Z.ltb_spec (Page f) 1), (Z.ltb_spec (PageSize f) 1); lia.
Qed.

Lemma limit_is_PageSize (f : Filters) : limit f = PageSize f.
Proof. reflexivity. Qed.

(** The clamp of [offset] never changes the wrapped product. *)
Lemma offset_is_wrapped_product (f : Filters) :
  offset f = GoInt.mul (GoInt.sub (Page f) 1) (PageSize f).
Proof.
  unfold offset, GoInt.mul. apply Z.min_l.
  apply wrap_in_range.
Qed.

Lemma offset_exact (f : Filters) :
  Filters_ok f ->
  GoInt.in_range ((Page f - 1) * PageSize f) ->
  offset f = (Page f - 1) * PageSize f.
Proof.
  intros [Hp Hs] Hprod.
  rewrite offset_is_wrapped_product. unfold GoInt.mul, GoInt.sub.
  destruct (Z.eq_dec (Page f) GoInt.MinInt) as [Hmin | Hmin].
  - (* Page - 1 wraps, and the product can only be representable for size 0 *)
    rewrite Hmin in *.
    assert (PageSize f = 0) as ->.
    { unfold GoInt.in_range in *. rewrite MinInt_value, MaxInt_value in *. nia. }
    rewrite !Z.mul_0_r. reflexivity.
  - rewrite (wrap_small (Page f - 1)).
    + apply wrap_small, Hprod.
    + unfold GoInt.in_range in *. rewrite MinInt_value, MaxInt_value in *. lia.
Qed.

(** C4: where the product overflows, [offset] is the wrapped product
    and not [MaxInt].  With page 2^62 + 1 and size 2 (both normalised)
    the product is 2^63; [offset] returns [MinInt], which is negative. *)
Theorem offset_overflow_wraps :
  let f := {| Page := 4611686018427387905; PageSize := 2 |} in
  Filters_ok f /\ 1 <= Page f /\ 1 <= PageSize f /\
  GoInt.MaxInt < (Page f - 1) * PageSize f /\
  offset f = GoInt.MinInt /\ offset f < 0 /\ offset f <> GoInt.MaxInt.
Proof.
  cbv zeta. repeat split; try discriminate; vm_compute; congruence.
Qed.

(** ** Pagination metadata *)

(** C8: no records, no metadata: the result is [Metadata{}] whatever
    page and size are. *)
Theorem calculateMetadata_zero (page pageSize : Z) :
  calculateMetadata 0 page pageSize = zeroMetadata.
Proof. reflexivity. Qed.


(** *** [float64] on integers below 2^53 *)

(** Rounding is studied on mantissas of 53 or 54 bits; these are the
    powers of two at their borders. *)
Ltac pow_consts :=
  change (2 ^ 52) with 4503599627370496 in *;
  change (2 ^ 53) with 9007199254740992 in *;
  change (2 ^ 54) with 18014398509481984 in *.

(** [digits2_pos] is the bit length. *)
Lemma digits2_bounds (p : positive) :
  2 ^ (Zpos (digits2_pos p) - 1) <= Zpos p < 2 ^ Zpos (digits2_pos p).
Proof.
  induction p as [p IH | p IH |]; simpl digits2_pos.
  - rewrite Pos2Z.inj_succ.
    replace (Z.succ (Z.pos (digits2_pos p)) - 1) with (Z.pos (digits2_pos p)) by lia.
    rewrite Z.pow_succ_r by lia.
    replace (2 ^ Z.pos (digits2_pos p)) with (2 * 2 ^ (Z.pos (digits2_pos p) - 1)) in *
      by (rewrite <- Z.pow_succ_r by lia; f_equal; lia).
    lia.
  - rewrite Pos2Z.inj_succ.
    replace (Z.succ (Z.pos (digits2_pos p)) - 1) with (Z.pos (digits2_pos p)) by lia.
    rewrite Z.pow_succ_r by lia.
    replace (2 ^ Z.pos (digits2_pos p)) with (2 * 2 ^ (Z.pos (digits2_pos p) - 1)) in *
      by (rewrite <- Z.pow_succ_r by lia; f_equal; lia).
    lia.
  - simpl. lia.
Qed.

Lemma digits2_unique (p : positive) (k : Z) :
  2 ^ (k - 1) <= Zpos p < 2 ^ k -> Zpos (digits2_pos p) = k.
Proof.
  intros [Hlo Hhi]. pose proof (digits2_bounds p) as [Dlo Dhi].
  assert (0 < k).
  { destruct (Z.ltb_spec 0 k); [assumption |].
    rewrite (Z.pow_neg_r 2 (k - 1)) in Hlo by lia.
    destruct (Z.eq_dec k 0) as [-> | ]; [simpl in Hhi; lia |].
    rewrite Z.pow_neg_r in Hhi by lia. lia. }
  destruct (Z.lt_trichotomy (Zpos (digits2_pos p)) k) as [Hlt | [Heq | Hgt]]; [| exact Heq |].
  - exfalso.
    assert (2 ^ Zpos (digits2_pos p) <= 2 ^ (k - 1)) by (apply Z.pow_le_mono_r; lia).
    lia.
  - exfalso.
    assert (2 ^ k <= 2 ^ (Zpos (digits2_pos p) - 1)) by (apply Z.pow_le_mono_r; lia).
    lia.
Qed.

(** The left shift of [shl_align]. *)
Lemma iter_xO (d p : positive) : Zpos (Pos.iter xO p d) = Zpos p * 2 ^ Zpos d.
Proof.
  revert p. induction d using Pos.peano_ind; intros p.
  - simpl. lia.
  - rewrite Pos.iter_succ, Pos2Z.inj_succ, Z.pow_succ_r by lia.
    rewrite Pos2Z.inj_xO, IHd. lia.
Qed.

(** Away from the subnormal range the exponent function is [d - 53]. *)
Lemma fexp53 (d : Z) : -1021 <= d -> fexp 53 1024 d = d - 53.
Proof. intros H. unfold fexp, emin. lia. Qed.

(** A 53-bit mantissa with an exact location is left as it is. *)
Lemma round_aux_exact (s : bool) (m : positive) (e : Z) :
  Zpos (digits2_pos m) = 53 -> -1074 <= e <= 971 ->
  binary_round_aux 53 1024 s (Zpos m) e loc_Exact = S754_finite s m e.
Proof.
  intros Hd He. unfold binary_round_aux, shr_fexp. simpl Zdigits2. rewrite Hd.
  rewrite fexp53 by lia.
  replace (53 + e - 53 - e) with 0 by lia. simpl shr. cbv iota beta.
  simpl. rewrite Hd. rewrite fexp53 by lia.
  replace (53 + e - 53 - e) with 0 by lia. simpl.
  destruct (Z.leb_spec e (1024 - 53)); [reflexivity | lia].
Qed.

(** The conversion of an integer below 2^53 is exact: its mantissa is
    the integer, shifted up to 53 bits. *)
Lemma of_int_spec (n : Z) :
  1 <= n < 2 ^ 53 ->
  exists m e, GoFloat64.of_int n = S754_finite false m e /\
              Zpos (digits2_pos m) = 53 /\ -52 <= e <= 0 /\
              Zpos m = n * 2 ^ (- e).
Proof.
  intros Hn. destruct n as [| p | p]; try lia.
  unfold GoFloat64.of_int, binary_normalize, binary_round, GoFloat64.prec, GoFloat64.emax.
  pose proof (digits2_bounds p) as [Dlo Dhi].
  set (D := Zpos (digits2_pos p)) in *.
  assert (HD : 1 <= D <= 53).
  { split; [subst D; lia |].
    destruct (Z.leb_spec D 53); [assumption | exfalso].
    assert (2 ^ 53 <= 2 ^ (D - 1)) by (apply Z.pow_le_mono_r; lia). lia. }
  rewrite Z.add_0_r. rewrite fexp53 by lia.
  unfold shl_align.
  destruct (Z.eq_dec D 53) as [H53 | H53].
  - rewrite H53. simpl. exists p, 0. split.
    + apply round_aux_exact; [exact H53 | lia].
    + split; [exact H53 |]. split; [lia |]. simpl. lia.
  - destruct (D - 53 - 0) as [| d | d] eqn:Hd; try lia.
    assert (Hval : Zpos (Pos.iter xO p d) = Zpos p * 2 ^ (53 - D)).
    { rewrite iter_xO. f_equal. f_equal. lia. }
    assert (Hdig : Zpos (digits2_pos (Pos.iter xO p d)) = 53).
    { apply digits2_unique. rewrite Hval.
      replace (2 ^ (53 - 1)) with (2 ^ (D - 1) * 2 ^ (53 - D))
        by (rewrite <- Z.pow_add_r by lia; f_equal; lia).
      replace (2 ^ 53) with (2 ^ D * 2 ^ (53 - D))
        by (rewrite <- Z.pow_add_r by lia; f_equal; lia).
      assert (0 < 2 ^ (53 - D)) by (apply Z.pow_pos_nonneg; lia).
      nia. }
    exists (Pos.iter xO p d), (D - 53). split.
    + apply round_aux_exact; [exact Hdig | lia].
    + split; [exact Hdig |]. split; [lia |]. rewrite Hval. f_equal. f_equal. lia.
Qed.

Lemma round_aux_finish (s : bool) (m e : Z) (l : location) :
  binary_round_aux 53 1024 s m e l =
  let '(mrs, e') := shr_fexp 53 1024 m e l in
  finish s (round_nearest_even (shr_m mrs) (loc_of_shr_record mrs)) e'.
Proof. reflexivity. Qed.

(** Renormalisation keeps the value. *)
Lemma finish_spec (m e : Z) :
  2 ^ 52 <= m <= 2 ^ 53 -> -1074 <= e <= 900 ->
  exists M E, finish false m e = S754_finite false M E /\
              Zpos (digits2_pos M) = 53 /\ e <= E <= e + 1 /\
              Zpos M * 2 ^ (E - e) = m.
Proof.
  intros Hm He. pow_consts. destruct m as [| p | p]; try lia.
  destruct (Z.eq_dec (Zpos p) 9007199254740992) as [Heq | Hne].
  - injection Heq as ->. unfold finish, shr_fexp.
    change (Zdigits2 (Z.pos 9007199254740992)) with 54.
    rewrite fexp53 by lia. replace (54 + e - 53 - e) with 1 by lia.
    simpl. destruct (Z.leb_spec (e + 1) (1024 - 53)); [| lia].
    exists 4503599627370496%positive, (e + 1).
    split; [reflexivity |]. split; [reflexivity |]. split; [lia |].
    replace (e + 1 - e) with 1 by lia. reflexivity.
  - assert (Hd : Zpos (digits2_pos p) = 53).
    { apply digits2_unique. change (2 ^ (53 - 1)) with 4503599627370496.
      change (2 ^ 53) with 9007199254740992. lia. }
    exists p, e. unfold finish, shr_fexp. simpl Zdigits2. rewrite Hd.
    rewrite fexp53 by lia. replace (53 + e - 53 - e) with 0 by lia. simpl.
    destruct (Z.leb_spec e (1024 - 53)); [| lia].
    split; [reflexivity |]. split; [reflexivity |]. split; [lia |].
    rewrite Z.sub_diag. simpl. lia.
Qed.

Lemma loc_of_record (m : Z) (l : location) :
  loc_of_shr_record (shr_record_of_loc m l) = l /\ shr_m (shr_record_of_loc m l) = m.
Proof. destruct l as [| []]; split; reflexivity. Qed.

(** Rounding a quotient [q] of 53 or 54 bits to nearest even, seen at
    the scale of [q]: with 53 bits the result is [q] or [q + 1]; with 54
    bits an even [q] is kept and an odd [q] moves by one, upwards as soon
    as the division left a remainder. *)
Lemma round_aux_spec (q e' : Z) (l : location) :
  2 ^ 52 <= q < 2 ^ 54 -> -200 <= e' <= -1 ->
  exists M E, binary_round_aux 53 1024 false q e' l = S754_finite false M E /\
    Zpos (digits2_pos M) = 53 /\ e' <= E <= e' + 2 /\
    let vN := Zpos M * 2 ^ (E - e') in
    (q < 2 ^ 53 -> q <= vN <= q + 1 /\ (l = loc_Exact -> vN = q)) /\
    (2 ^ 53 <= q -> Z.even q = true -> vN = q) /\
    (2 ^ 53 <= q -> Z.even q = false ->
       q - 1 <= vN <= q + 1 /\ (l <> loc_Exact -> vN = q + 1)).
Proof.
  intros Hq He. pow_consts. destruct q as [| qp | qp]; try lia.
  rewrite round_aux_finish. unfold shr_fexp. simpl Zdigits2.
  destruct (Z.ltb_spec (Zpos qp) 9007199254740992) as [Hlt | Hge].
  - (* 53 digits: no shift *)
    assert (Hd : Zpos (digits2_pos qp) = 53).
    { apply digits2_unique. change (2 ^ (53 - 1)) with 4503599627370496.
      change (2 ^ 53) with 9007199254740992. lia. }
    rewrite Hd, fexp53 by lia. replace (53 + e' - 53 - e') with 0 by lia.
    simpl shr. cbv iota beta.
    destruct (loc_of_record (Zpos qp) l) as [-> ->].
    set (mr := round_nearest_even (Zpos qp) l).
    assert (Hmr : Zpos qp <= mr <= Zpos qp + 1 /\ (l = loc_Exact -> mr = Zpos qp)).
    { subst mr. unfold round_nearest_even.
      destruct l as [| []]; try destruct (Z.even (Zpos qp));
        (split; [lia | first [reflexivity | discriminate]]). }
    destruct (finish_spec mr e') as (M & E & -> & HdM & HE & Hval);
      [pow_consts; lia | lia |].
    exists M, E. split; [reflexivity |]. split; [exact HdM |]. split; [lia |].
    cbv zeta. rewrite Hval. split; [intros _; exact Hmr |]. split; intros; lia.
  - (* 54 digits: one shift *)
    assert (Hd : Zpos (digits2_pos qp) = 54).
    { apply digits2_unique. change (2 ^ (54 - 1)) with 9007199254740992.
      change (2 ^ 54) with 18014398509481984. lia. }
    rewrite Hd, fexp53 by lia. replace (54 + e' - 53 - e') with 1 by lia.
    simpl shr. cbv iota beta.
    assert (Hshape : exists p, (qp = xO p \/ qp = xI p) /\
                               4503599627370496 <= Zpos p < 9007199254740992).
    { destruct qp as [p | p |]; [exists p | exists p |]; try (split; [auto | lia]).
      simpl in Hge. lia. }
    destruct Hshape as (p & Hshape & Hp).
    destruct Hshape as [-> | ->].
    + (* even *)
      assert (Hrec : exists st, shr_1 (shr_record_of_loc (Zpos p~0) l)
                                = {| shr_m := Zpos p; shr_r := false; shr_s := st |}).
      { destruct l as [| []]; eexists; reflexivity. }
      destruct Hrec as (st & ->). simpl shr_m.
      assert (Hmr : round_nearest_even (Zpos p)
                      (loc_of_shr_record {| shr_m := Zpos p; shr_r := false; shr_s := st |})
                    = Zpos p).
      { destruct st; reflexivity. }
      rewrite Hmr.
      destruct (finish_spec (Zpos p) (e' + 1)) as (M & E & -> & HdM & HE & Hval);
        [pow_consts; lia | lia |].
      exists M, E. split; [reflexivity |]. split; [exact HdM |]. split; [lia |].
      cbv zeta.
      assert (HvN : Zpos M * 2 ^ (E - e') = Zpos p~0).
      { replace (E - e') with (Z.succ (E - (e' + 1))) by lia.
        rewrite Z.pow_succ_r by lia. lia. }
      rewrite HvN. split; [lia |]. split; [reflexivity |].
      intros _ Hodd. simpl in Hodd. discriminate.
    + (* odd *)
      assert (Hrec : shr_1 (shr_record_of_loc (Zpos p~1) l)
                     = {| shr_m := Zpos p; shr_r := true;
                          shr_s := match l with loc_Exact => false | _ => true end |}).
      { destruct l as [| []]; reflexivity. }
      rewrite Hrec. simpl shr_m.
      set (mr := round_nearest_even (Zpos p) _).
      assert (Hmr : Zpos p <= mr <= Zpos p + 1 /\ (l <> loc_Exact -> mr = Zpos p + 1)).
      { subst mr. unfold round_nearest_even, loc_of_shr_record.
        destruct l as [| []]; try destruct (Z.even (Zpos p));
          (split; [lia | first [reflexivity | congruence]]). }
      destruct (finish_spec mr (e' + 1)) as (M & E & -> & HdM & HE & Hval);
        [pow_consts; lia | lia |].
      exists M, E. split; [reflexivity |]. split; [exact HdM |]. split; [lia |].
      cbv zeta.
      assert (HvN : Zpos M * 2 ^ (E - e') = 2 * mr).
      { replace (E - e') with (Z.succ (E - (e' + 1))) by lia.
        rewrite Z.pow_succ_r by lia. lia. }
      rewrite HvN. split; [lia |]. split.
      * intros _ Heven. simpl in Heven. discriminate.
      * intros _ _. destruct Hmr as [Hb Hup]. split; [lia |].
        intros Hl. rewrite (Hup Hl). lia.
Qed.

(** The division of two 53-bit mantissas: a quotient with 53 more bits,
    its remainder turned into a location, then rounding. *)
Lemma div_structure (m1 m2 : positive) (e1 e2 : Z) :
  Zpos (digits2_pos m1) = 53 -> Zpos (digits2_pos m2) = 53 ->
  -52 <= e1 <= 0 -> -52 <= e2 <= 0 ->
  GoFloat64.div (S754_finite false m1 e1) (S754_finite false m2 e2) =
  binary_round_aux 53 1024 false ((Zpos m1 * 2 ^ 53) / Zpos m2) (e1 - e2 - 53)
    (new_location (Zpos m2) ((Zpos m1 * 2 ^ 53) mod Zpos m2)).
Proof.
  intros H1 H2 He1 He2.
  unfold GoFloat64.div, SFdiv, SFdiv_core_binary, GoFloat64.prec, GoFloat64.emax.
  simpl Zdigits2. rewrite H1, H2.
  replace (53 + e1 - (53 + e2)) with (e1 - e2) by lia.
  rewrite fexp53 by lia.
  rewrite Z.min_l by lia.
  replace (e1 - e2 - (e1 - e2 - 53)) with 53 by lia.
  rewrite Z.shiftl_mul_pow2 by lia.
  unfold Z.div, Z.modulo.
  destruct (Z.div_eucl (Zpos m1 * 2 ^ 53) (Zpos m2)) as [q r]. reflexivity.
Qed.

Lemma new_location_exact (m r : Z) :
  0 <= r -> (new_location m r = loc_Exact <-> r = 0).
Proof.
  intros Hr. unfold new_location, new_location_even, new_location_odd.
  destruct (Z.even m); destruct (Z.eqb_spec r 0); split; auto; try discriminate; try lia.
Qed.

(** Integers up to 2^53 survive the round trip through [float64]. *)
Lemma to_int_of_int (c : Z) :
  1 <= c <= 2 ^ 53 -> GoFloat64.to_int (GoFloat64.of_int c) = c.
Proof.
  intros Hc. pow_consts.
  destruct (Z.eq_dec c 9007199254740992) as [-> | Hne]; [reflexivity |].
  destruct (of_int_spec c) as (m & e & -> & _ & He & Hm); [pow_consts; lia |].
  unfold GoFloat64.to_int. rewrite Hm.
  assert (Hrange : (GoInt.MinInt <=? c) && (c <=? GoInt.MaxInt) = true).
  { rewrite MinInt_value, MaxInt_value. apply andb_true_iff. split; apply Z.leb_le; lia. }
  destruct (Z.leb_spec 0 e).
  - assert (e = 0) as -> by lia. simpl. rewrite !Z.mul_1_r. simpl. rewrite Hrange. reflexivity.
  - rewrite Z.div_mul by (apply Z.pow_nonzero; lia). simpl. rewrite Hrange. reflexivity.
Qed.



Lemma to_int_Ceil (M : positive) (E : Z) :
  1 <= ceil_of (Zpos M) E <= 2 ^ 53 ->
  GoFloat64.to_int (GoFloat64.Ceil (S754_finite false M E)) = ceil_of (Zpos M) E.
Proof.
  unfold ceil_of, GoFloat64.Ceil. intros HC.
  destruct (Z.leb_spec 0 E).
  - unfold GoFloat64.to_int. destruct (Z.leb_spec 0 E); [| lia].
    simpl cond_Zopp.
    assert (Hrange : (GoInt.MinInt <=? Zpos M * 2 ^ E) && (Zpos M * 2 ^ E <=? GoInt.MaxInt) = true).
    { rewrite MinInt_value, MaxInt_value. pow_consts.
      apply andb_true_iff. split; apply Z.leb_le; lia. }
    rewrite Hrange. reflexivity.
  - simpl cond_Zopp. apply to_int_of_int. exact HC.
Qed.

(** [- ((- M) / T)] is the ceiling of [M / T]. *)
Lemma ceil_neg_div (M T : Z) :
  0 < T -> (- ((- M) / T) - 1) * T < M <= - ((- M) / T) * T.
Proof.
  intros HT. pose proof (Z.div_mod (- M) T ltac:(lia)) as Hdm.
  pose proof (Z.mod_pos_bound (- M) T HT) as Hb. nia.
Qed.

Lemma ceil_div_spec (a b : Z) :
  0 < b -> ceil_div a b = a / b + (if a mod b =? 0 then 0 else 1).
Proof.
  intros Hb. unfold ceil_div.
  pose proof (Z.div_mod a b ltac:(lia)) as Hdm.
  pose proof (Z.mod_pos_bound a b Hb) as Hr.
  destruct (Z.eqb_spec (a mod b) 0) as [H0 | H0].
  - symmetry. apply (Z.div_unique _ _ _ (b - 1)); lia.
  - symmetry. apply (Z.div_unique _ _ _ (a mod b - 1)); lia.
Qed.

(** From the scaled value of the quotient to the integer above it. *)
Lemma ceil_of_scaled (M : positive) (E e' Q : Z) :
  e' <= E -> e' < 0 -> 0 <= Q ->
  let vN := Zpos M * 2 ^ (E - e') in
  let N := 2 ^ (- e') in
  (vN = Q * N -> ceil_of (Zpos M) E = Q) /\
  (Q * N < vN <= (Q + 1) * N -> ceil_of (Zpos M) E = Q + 1).
Proof.
  intros HE He' HQ vN N. unfold ceil_of.
  assert (HN : 0 < N) by (apply Z.pow_pos_nonneg; lia).
  destruct (Z.leb_spec 0 E) as [Hpos | Hneg].
  - assert (HvN : vN = Zpos M * 2 ^ E * N).
    { subst vN N. replace (E - e') with (E + - e') by lia.
      rewrite Z.pow_add_r by lia. lia. }
    rewrite HvN. split; intros H; nia.
  - set (T := 2 ^ (- E)). set (U := 2 ^ (E - e')).
    assert (HT : 0 < T) by (apply Z.pow_pos_nonneg; lia).
    assert (HU : 0 < U) by (apply Z.pow_pos_nonneg; lia).
    assert (HNTU : N = T * U).
    { subst N T U. rewrite <- Z.pow_add_r by lia. f_equal. lia. }
    pose proof (ceil_neg_div (Zpos M) T HT) as Hc.
    set (C := - (- Zpos M / T)) in *.
    fold U in vN. subst vN. rewrite HNTU. split; intros H.
    + assert (Zpos M = Q * T) by nia. nia.
    + assert (Q * T < Zpos M <= (Q + 1) * T) by nia. nia.
Qed.

(** While total and size stay below 2^53 the last page is the ceiling
    of their quotient. *)
Lemma calculateMetadata_last_page_exact (a page b : Z) :
  1 <= a < 2 ^ 53 -> 1 <= b < 2 ^ 53 ->
  LastPage (calculateMetadata a page b) = ceil_div a b.
Proof.
  intros Ha Hb. unfold calculateMetadata.
  destruct (Z.eqb_spec a 0); [lia |]. simpl LastPage.
  destruct (of_int_spec a Ha) as (m1 & e1 & -> & Hd1 & He1 & Hm1).
  destruct (of_int_spec b Hb) as (m2 & e2 & -> & Hd2 & He2 & Hm2).
  rewrite div_structure by assumption.
  pose proof (digits2_bounds m1) as Hb1. rewrite Hd1 in Hb1.
  pose proof (digits2_bounds m2) as Hb2. rewrite Hd2 in Hb2.
  change (2 ^ (53 - 1)) with (2 ^ 52) in *.
  set (L := 2 ^ (- e1)) in *. set (K := 2 ^ (- e2)) in *.
  set (e' := e1 - e2 - 53). set (N := 2 ^ (- e')).
  assert (HL : 1 <= L) by (subst L; pose proof (Z.pow_pos_nonneg 2 (- e1)); lia).
  assert (HK : 0 < K) by (apply Z.pow_pos_nonneg; lia).
  assert (HNK : N * K = 2 ^ 53 * L).
  { subst N K L e'. rewrite <- !Z.pow_add_r by lia. f_equal. lia. }
  assert (HN2 : exists N', N = 2 * N' /\ 0 < N').
  { exists (2 ^ (- e' - 1)). split.
    - subst N. rewrite <- Z.pow_succ_r by (subst e'; lia). f_equal. lia.
    - apply Z.pow_pos_nonneg; subst e'; lia. }
  destruct HN2 as (N' & HN2 & HN').
  assert (HNb : b < N) by nia.
  assert (Hnum : Zpos m1 * 2 ^ 53 = a * N * K) by nia.
  rewrite Hnum, Hm2.
  assert (Hq : a * N * K / (b * K) = a * N / b).
  { apply Z.div_mul_cancel_r; lia. }
  assert (Hr : (a * N * K) mod (b * K) = (a * N) mod b * K).
  { apply Z.mul_mod_distr_r; lia. }
  rewrite Hq, Hr.
  set (Q := a / b). set (R := a mod b).
  pose proof (Z.div_mod a b ltac:(lia)) as Hdm. fold Q R in Hdm.
  pose proof (Z.mod_pos_bound a b ltac:(lia)) as HR. fold R in HR.
  assert (HQ0 : 0 <= Q) by (subst Q; apply Z.div_pos; lia).
  assert (HaN : a * N = Q * N * b + R * N) by nia.
  assert (HqQ : a * N / b = Q * N + R * N / b).
  { rewrite HaN. rewrite Z.div_add_l by lia. reflexivity. }
  assert (HrR : (a * N) mod b = (R * N) mod b).
  { rewrite HaN. rewrite Z.add_comm. apply Z.mod_add. lia. }
  set (f := R * N / b) in *. set (g := (R * N) mod b) in *.
  pose proof (Z.div_mod (R * N) b ltac:(lia)) as Hfg. fold f g in Hfg.
  pose proof (Z.mod_pos_bound (R * N) b ltac:(lia)) as Hg. fold g in Hg.
  set (q := a * N / b) in *.
  assert (Hqb : 2 ^ 52 <= q < 2 ^ 54).
  { subst q. rewrite <- Hq, <- Hnum, <- Hm2. pow_consts. split.
    - apply Z.div_le_lower_bound; lia.
    - apply Z.div_lt_upper_bound; lia. }
  destruct (round_aux_spec q e' (new_location (b * K) ((a * N) mod b * K)))
    as (M & E & -> & HdM & HE & H53 & H54e & H54o); [exact Hqb | subst e'; lia |].
  cbv zeta in H53, H54e, H54o.
  assert (Hloc : new_location (b * K) ((a * N) mod b * K) = loc_Exact <-> g = 0).
  { rewrite new_location_exact by (rewrite HrR; nia). rewrite HrR. nia. }
  set (vN := Zpos M * 2 ^ (E - e')) in *.
  destruct (ceil_of_scaled M E e' Q) as [Hexact Hup]; [lia | subst e'; lia | exact HQ0 |].
  cbv zeta in Hexact, Hup. fold vN N in Hexact, Hup.
  rewrite ceil_div_spec by lia. fold Q R.
  assert (Hgoal : ceil_of (Zpos M) E = Q + (if R =? 0 then 0 else 1)).
  { destruct (Z.eqb_spec R 0) as [HR0 | HR0].
    - (* the division is exact *)
      rewrite Z.add_0_r. apply Hexact.
      assert (f = 0 /\ g = 0) as [Hf0 Hg0].
      { subst f g. rewrite HR0. simpl. rewrite Z.div_0_l, Z.mod_0_l by lia. auto. }
      assert (HqQN : q = Q * N) by lia.
      destruct (Z.ltb_spec q (2 ^ 53)) as [Hlt | Hge].
      + destruct (H53 Hlt) as [_ Hex]. rewrite Hex; [exact HqQN | apply Hloc, Hg0].
      + rewrite H54e; [exact HqQN | exact Hge |].
        rewrite HqQN, HN2, !Z.even_mul. simpl. apply orb_true_r.
    - (* a remainder is left *)
      apply Hup.
      assert (HRN : N <= R * N) by (clear - HR HR0 HN'  HN2; nia).
      assert (HRN' : R * N < b * N) by (clear - HR HN' HN2; nia).
      assert (Hf : 1 <= f <= N - 1).
      { split.
        - subst f. apply Z.div_le_lower_bound; lia.
        - assert (f < N); [| lia]. subst f. apply Z.div_lt_upper_bound; lia. }
      assert (HQN : (Q + 1) * N = Q * N + N) by ring.
      rewrite HQN.
      destruct (Z.ltb_spec q (2 ^ 53)) as [Hlt | Hge].
      + destruct (H53 Hlt) as [Hb' _]. lia.
      + destruct (Z.even q) eqn:Hev.
        * rewrite (H54e Hge eq_refl). lia.
        * destruct (H54o Hge eq_refl) as [Hb' Hround].
          split; [| lia].
          destruct (Z.eq_dec f 1) as [Hf1 | Hf1]; [| lia].
          rewrite Hround; [lia |].
          intros Hex. apply Hloc in Hex.
          rewrite Hf1, Hex in Hfg. lia. }
  rewrite to_int_Ceil; [exact Hgoal |].
  rewrite Hgoal. pow_consts.
  assert (HQa : Q <= a /\ (R = 0 -> 1 <= Q)).
  { clear - Hdm HR Ha Hb HQ0. split; [nia |]. intros HR0. rewrite HR0 in Hdm. nia. }
  assert (HQa' : R <> 0 -> Q < a).
  { clear - Hdm HR Ha Hb HQ0. intros HR0. nia. }
  destruct (Z.eqb_spec R 0); lia.
Qed.

(** The same by evaluation, for all totals up to 300 and sizes up to
    60, and at the edge of the exact range. *)
Lemma calculateMetadata_last_page_small :
  forallb (fun total =>
             forallb (fun size =>
                        LastPage (calculateMetadata total 1 size) =? ceil_div total size)
                     (seqZ 1 60))
          (seqZ 1 300) = true.
Proof. vm_compute. reflexivity. Qed.

Lemma calculateMetadata_last_page_edge :
  LastPage (calculateMetadata 9007199254740992 1 1) = 9007199254740992 /\
  LastPage (calculateMetadata 9007199254740991 1 2) = 4503599627370496 /\
  LastPage (calculateMetadata 7 1 5) = 2.
Proof. vm_compute. auto. Qed.

(** Beyond 2^53 the conversion to [float64] rounds: for 2^53 + 1
    records and size 1 the last page would be 2^53.  No row count
    comes near that. *)
Lemma calculateMetadata_last_page_rounds :
  let total := 9007199254740993 in
  1 <= total <= GoInt.MaxInt /\
  ceil_div total 1 = total /\
  LastPage (calculateMetadata total 1 1) = 9007199254740992 /\
  LastPage (calculateMetadata total 1 1) <> ceil_div total 1.
Proof.
  cbv zeta. repeat split; try discriminate; vm_compute; congruence.
Qed.

(** *** Sizes from 2^53 on *)

(** One right shift halves the mantissa. *)
Lemma shr_1_m (r : shr_record) : 0 <= shr_m r -> shr_m (shr_1 r) = shr_m r / 2.
Proof.
  destruct r as [m rb sb]. simpl. intros Hm.
  destruct m as [| [p | p |] | p]; cbn [shr_m]; try lia.
  - reflexivity.
  - apply (Z.div_unique _ _ _ 1); lia.
  - apply (Z.div_unique _ _ _ 0); lia.
  - reflexivity.
Qed.

Lemma iter_shr_1_m (n : positive) :
  forall r, 0 <= shr_m r -> shr_m (SpecFloat.iter_pos shr_1 n r) = shr_m r / 2 ^ Zpos n.
Proof.
  induction n as [n IH | n IH |]; intros r Hr.
  - change (SpecFloat.iter_pos shr_1 n~1 r)
      with (SpecFloat.iter_pos shr_1 n (SpecFloat.iter_pos shr_1 n (shr_1 r))).
    assert (H1 : 0 <= shr_m (shr_1 r)) by (rewrite shr_1_m by lia; apply Z.div_pos; lia).
    assert (H2 : 0 <= shr_m (SpecFloat.iter_pos shr_1 n (shr_1 r))).
    { rewrite IH by lia. apply Z.div_pos; [lia | apply Z.pow_pos_nonneg; lia]. }
    rewrite IH, IH, shr_1_m by lia.
    rewrite !Z.div_div by first [lia | apply Z.pow_pos_nonneg; lia | apply Z.pow_nonzero; lia].
    f_equal.
    replace (Zpos n~1) with (1 + Zpos n + Zpos n) by lia.
    rewrite !Z.pow_add_r by lia. change (2 ^ 1) with 2. ring.
  - change (SpecFloat.iter_pos shr_1 n~0 r)
      with (SpecFloat.iter_pos shr_1 n (SpecFloat.iter_pos shr_1 n r)).
    assert (H2 : 0 <= shr_m (SpecFloat.iter_pos shr_1 n r)).
    { rewrite IH by lia. apply Z.div_pos; [lia | apply Z.pow_pos_nonneg; lia]. }
    rewrite IH, IH by lia.
    rewrite !Z.div_div by first [lia | apply Z.pow_pos_nonneg; lia | apply Z.pow_nonzero; lia].
    f_equal.
    replace (Zpos n~0) with (Zpos n + Zpos n) by lia.
    rewrite !Z.pow_add_r by lia. ring.
  - apply shr_1_m, Hr.
Qed.

Lemma round_nearest_even_bounds (m : Z) (l : location) :
  m <= round_nearest_even m l <= m + 1.
Proof.
  unfold round_nearest_even. destruct l as [| []]; try destruct (Z.even m); lia.
Qed.

(** The conversion of an [int] from 2^53 on rounds to 53 bits: the
    result is a 53-bit mantissa with a positive exponent. *)
Lemma of_int_wide (n : Z) :
  2 ^ 53 <= n <= GoInt.MaxInt ->
  exists m e, GoFloat64.of_int n = S754_finite false m e /\
              Zpos (digits2_pos m) = 53 /\ 1 <= e <= 11.
Proof.
  rewrite MaxInt_value. intros Hn. pow_consts. destruct n as [| p | p]; try lia.
  unfold GoFloat64.of_int, binary_normalize, binary_round, GoFloat64.prec, GoFloat64.emax.
  pose proof (digits2_bounds p) as [Dlo Dhi].
  set (D := Zpos (digits2_pos p)) in *.
  assert (HD : 54 <= D <= 63).
  { split.
    - destruct (Z.leb_spec 54 D); [assumption | exfalso].
      assert (2 ^ D <= 2 ^ 53) by (apply Z.pow_le_mono_r; lia). pow_consts. lia.
    - destruct (Z.leb_spec D 63); [assumption | exfalso].
      assert (2 ^ 63 <= 2 ^ (D - 1)) by (apply Z.pow_le_mono_r; lia).
      change (2 ^ 63) with 9223372036854775808 in *. lia. }
  rewrite Z.add_0_r. rewrite fexp53 by lia.
  unfold shl_align.
  destruct (D - 53 - 0) as [| d | d] eqn:Hd; try lia.
  rewrite round_aux_finish. unfold shr_fexp. simpl Zdigits2. fold D.
  rewrite Z.add_0_r, fexp53 by lia. rewrite Z.sub_0_r.
  replace (D - 53) with (Zpos d) by lia.
  unfold shr.
  set (mrs := SpecFloat.iter_pos shr_1 d (shr_record_of_loc (Zpos p) loc_Exact)).
  assert (Hm : shr_m mrs = Zpos p / 2 ^ Zpos d).
  { subst mrs. rewrite iter_shr_1_m by (simpl; lia). reflexivity. }
  assert (Hmb : 2 ^ 52 <= shr_m mrs < 2 ^ 53).
  { rewrite Hm.
    assert (Hpow : 0 < 2 ^ Zpos d) by (apply Z.pow_pos_nonneg; lia).
    assert (Hlo : 2 ^ (D - 1) = 2 ^ 52 * 2 ^ Zpos d).
    { rewrite <- Z.pow_add_r by lia. f_equal. lia. }
    assert (Hhi : 2 ^ D = 2 ^ 53 * 2 ^ Zpos d).
    { rewrite <- Z.pow_add_r by lia. f_equal. lia. }
    split.
    - apply Z.div_le_lower_bound; lia.
    - apply Z.div_lt_upper_bound; lia. }
  pose proof (round_nearest_even_bounds (shr_m mrs) (loc_of_shr_record mrs)) as Hr.
  destruct (finish_spec (round_nearest_even (shr_m mrs) (loc_of_shr_record mrs)) (0 + Zpos d))
    as (M & E & -> & HdM & HE & _); [lia | lia |].
  exists M, E. split; [reflexivity |]. split; [exact HdM | lia].
Qed.

(** The division of two 53-bit mantissas, the divisor with an exponent
    up to 11. *)
Lemma div_structure_wide (m1 m2 : positive) (e1 e2 : Z) :
  Zpos (digits2_pos m1) = 53 -> Zpos (digits2_pos m2) = 53 ->
  -52 <= e1 <= 0 -> 1 <= e2 <= 11 ->
  GoFloat64.div (S754_finite false m1 e1) (S754_finite false m2 e2) =
  binary_round_aux 53 1024 false ((Zpos m1 * 2 ^ 53) / Zpos m2) (e1 - e2 - 53)
    (new_location (Zpos m2) ((Zpos m1 * 2 ^ 53) mod Zpos m2)).
Proof.
  intros H1 H2 He1 He2.
  unfold GoFloat64.div, SFdiv, SFdiv_core_binary, GoFloat64.prec, GoFloat64.emax.
  simpl Zdigits2. rewrite H1, H2.
  replace (53 + e1 - (53 + e2)) with (e1 - e2) by lia.
  rewrite fexp53 by lia.
  rewrite Z.min_l by lia.
  replace (e1 - e2 - (e1 - e2 - 53)) with 53 by lia.
  rewrite Z.shiftl_mul_pow2 by lia.
  unfold Z.div, Z.modulo.
  destruct (Z.div_eucl (Zpos m1 * 2 ^ 53) (Zpos m2)) as [q r]. reflexivity.
Qed.

(** A total below 2^53 on pages of 2^53 rows or more: one page. *)
Lemma calculateMetadata_last_page_wide (a page b : Z) :
  1 <= a < 2 ^ 53 -> 2 ^ 53 <= b <= GoInt.MaxInt ->
  LastPage (calculateMetadata a page b) = 1.
Proof.
  intros Ha Hb. unfold calculateMetadata.
  destruct (Z.eqb_spec a 0); [lia |]. simpl LastPage.
  destruct (of_int_spec a Ha) as (m1 & e1 & -> & Hd1 & He1 & Hm1).
  destruct (of_int_wide b Hb) as (m2 & e2 & -> & Hd2 & He2).
  rewrite div_structure_wide by assumption.
  pose proof (digits2_bounds m1) as Hb1. rewrite Hd1 in Hb1.
  pose proof (digits2_bounds m2) as Hb2. rewrite Hd2 in Hb2.
  change (2 ^ (53 - 1)) with (2 ^ 52) in *.
  set (e' := e1 - e2 - 53). set (N := 2 ^ (- e')).
  set (q := Zpos m1 * 2 ^ 53 / Zpos m2).
  assert (HN : N = 2 ^ 53 * 2 ^ (- e1) * 2 ^ e2).
  { subst N e'. rewrite <- !Z.pow_add_r by lia. f_equal. lia. }
  assert (HL : 1 <= 2 ^ (- e1)) by (pose proof (Z.pow_pos_nonneg 2 (- e1)); lia).
  assert (HP : 2 <= 2 ^ e2).
  { change 2 with (2 ^ 1) at 1. apply Z.pow_le_mono_r; lia. }
  assert (Hqb : 2 ^ 52 <= q < 2 ^ 54).
  { subst q. pow_consts. split.
    - apply Z.div_le_lower_bound; lia.
    - apply Z.div_lt_upper_bound; lia. }
  assert (HqN : q < N).
  { subst q. apply Z.div_lt_upper_bound; [lia |]. rewrite HN. pow_consts.
    clear - Hb1 Hb2 HL HP. nia. }
  destruct (round_aux_spec q e' (new_location (Zpos m2) ((Zpos m1 * 2 ^ 53) mod Zpos m2)))
    as (M & E & -> & HdM & HE & H53 & H54e & H54o); [exact Hqb | subst e'; lia |].
  cbv zeta in H53, H54e, H54o.
  set (vN := Zpos M * 2 ^ (E - e')) in *.
  assert (HvN : 0 < vN <= q + 1).
  { split.
    - subst vN. apply Z.mul_pos_pos; [lia | apply Z.pow_pos_nonneg; lia].
    - destruct (Z.ltb_spec q (2 ^ 53)) as [Hlt | Hge].
      + destruct (H53 Hlt) as [Hv _]. lia.
      + destruct (Z.even q) eqn:Hev.
        * rewrite (H54e Hge eq_refl). lia.
        * destruct (H54o Hge eq_refl) as [Hv _]. lia. }
  destruct (ceil_of_scaled M E e' 0) as [_ Hup]; [lia | subst e'; lia | lia |].
  cbv zeta in Hup. fold vN N in Hup.
  assert (Hceil : ceil_of (Zpos M) E = 1) by (apply Hup; lia).
  rewrite to_int_Ceil; [exact Hceil |].
  rewrite Hceil. pow_consts. lia.
Qed.

Lemma ceil_div_one (a b : Z) : 1 <= a <= b -> ceil_div a b = 1.
Proof.
  intros H. unfold ceil_div. symmetry. apply (Z.div_unique _ _ _ (a - 1)); lia.
Qed.

(** For a total below 2^53 and every size an [int] can hold, the last
    page is the ceiling of total / size. *)
Lemma calculateMetadata_last_page_ceil (total page size : Z) :
  1 <= total < 2 ^ 53 -> 1 <= size <= GoInt.MaxInt ->
  LastPage (calculateMetadata total page size) = ceil_div total size.
Proof.
  intros Ht Hs. destruct (Z.ltb_spec size (2 ^ 53)) as [Hlt | Hge].
  - apply calculateMetadata_last_page_exact; lia.
  - rewrite calculateMetadata_last_page_wide by lia.
    symmetry. apply ceil_div_one. lia.
Qed.

(** The same by evaluation at the borders of the wide range. *)
Lemma calculateMetadata_last_page_wide_edge :
  LastPage (calculateMetadata 9007199254740991 1 9007199254740992) = 1 /\
  LastPage (calculateMetadata 9007199254740991 1 9007199254740993) = 1 /\
  LastPage (calculateMetadata 1 1 GoInt.MaxInt) = 1 /\
  LastPage (calculateMetadata 2147483647 1 GoInt.MaxInt) = 1.
Proof. vm_compute. auto. Qed.

(** The metadata of a non-empty result, in full. *)
Lemma calculateMetadata_full (total page size : Z) :
  1 <= total < 2 ^ 53 -> 1 <= size <= GoInt.MaxInt ->
  calculateMetadata total page size =
    {| CurrentPage := page; MPageSize := size; FirstPage := 1;
       LastPage := ceil_div total size; TotalRecords := total |}.
Proof.
  intros Ht Hs.
  rewrite <- (calculateMetadata_last_page_ceil total page size Ht Hs).
  unfold calculateMetadata. destruct (Z.eqb_spec total 0); [lia | reflexivity].
Qed.




(** ** Fetching *)

Lemma carries_refl (e : error) : carries e e.
Proof. destruct e; left; reflexivity. Qed.

Lemma carries_wrap (msg : string) (e : error) : carries (wrapError msg e) e.
Proof. right. apply carries_refl. Qed.

#[local] Hint Resolve carries_refl carries_wrap : core.

(** C7, as stated, does not hold: a 204 answer is a 2xx answer with a
    readable body, and the fetch fails on it. *)
Lemma getContents_2xx_counterexample :
  ~ (forall (n : Network) (url : string) (resp : Response) (body : string),
        NewRequest n url = None ->
        Do n url = inl resp ->
        200 <= StatusCode resp <= 299 ->
        ReadAll resp = (body, None) ->
        getContents n url = (body, None)).
Proof.
  intros H.
  specialize (H {| NewRequest := fun _ => None;
                   Do := fun _ => inl {| StatusCode := 204; ReadAll := (EmptyString, None) |} |}
                "http://example.com"%string
                {| StatusCode := 204; ReadAll := (EmptyString, None) |}
                EmptyString eq_refl eq_refl).
  simpl in H.
  specialize (H ltac:(lia) eq_refl).
  discriminate H.
Qed.

(** C7 (amended): the fetch succeeds exactly when the request can be
    built, the transport delivers a response, its status is 200 and the
    body can be read, and then returns the raw body.  In every other
    case it returns the empty string and an error which wraps the cause
    (request, transport or read error) or names the status. *)
Theorem getContents_outcomes (n : Network) (url : string) :
  match getContents n url with
  | (body, None) =>
      exists resp,
        NewRequest n url = None /\ Do n url = inl resp /\
        StatusCode resp = 200 /\ ReadAll resp = (body, None)
  | (body, Some err) =>
      body = EmptyString /\
      ((exists cause, NewRequest n url = Some cause /\ carries err cause) \/
       (exists cause,
           NewRequest n url = None /\ Do n url = inr cause /\ carries err cause) \/
       (exists resp,
           NewRequest n url = None /\ Do n url = inl resp /\
           StatusCode resp <> 200 /\
           err = errorString ("unexpected status code: " ++ itoa (StatusCode resp))) \/
       (exists resp cause,
           NewRequest n url = None /\ Do n url = inl resp /\
           StatusCode resp = 200 /\ snd (ReadAll resp) = Some cause /\
           carries err cause))
  end.
Proof.
  unfold getContents.
  destruct (NewRequest n url) as [e0 |] eqn:Hreq.
  { split; [reflexivity |]. left. exists e0. auto. }
  destruct (Do n url) as [resp | e1] eqn:Hdo.
  2:{ split; [reflexivity |]. right; left. exists e1. auto. }
  unfold StatusOK.
  destruct (Z.eqb_spec (StatusCode resp) 200) as [Hst | Hst]; simpl.
  2:{ split; [reflexivity |]. right; right; left. exists resp. auto. }
  destruct (ReadAll resp) as [body [e2 |]] eqn:Hread.
  - split; [reflexivity |]. right; right; right. exists resp, e2.
    rewrite Hread. simpl. auto 10.
  - exists resp. auto.
Qed.

(** The converse reading of the same fact: status 200 and a readable body
    give the body back. *)
Lemma getContents_ok (n : Network) (url : string) (resp : Response) (body : string) :
  NewRequest n url = None ->
  Do n url = inl resp ->
  StatusCode resp = 200 ->
  ReadAll resp = (body, None) ->
  getContents n url = (body, None).
Proof.
  intros Hreq Hdo Hst Hread. unfold getContents.
  rewrite Hreq, Hdo, Hst, Hread. reflexivity.
Qed.

(** ** Matching *)

Lemma strip_prefix_length (a s rest : string) :
  regexp.strip_prefix a s = Some rest -> (String.length rest <= String.length s)%nat.
Proof.
  revert s. induction a as [| x a IH]; intros s H; simpl in H.
  - injection H as ->. lia.
  - destruct s as [| y s]; [discriminate |].
    destruct (Ascii.eqb x y); [| discriminate].
    apply IH in H. simpl. lia.
Qed.

Lemma first_alt_length (alts : list string) (s rest : string) :
  regexp.first_alt alts s = Some rest -> (String.length rest <= String.length s)%nat.
Proof.
  induction alts as [| a alts IH]; simpl; [discriminate |].
  destruct (regexp.strip_prefix a s) eqn:Ha.
  - intros [= <-]. eauto using strip_prefix_length.
  - exact IH.
Qed.

(** One unfolding of the repetition. *)
Lemma run_PlusNot_step (c : ascii) (p : regexp.Regexp) (a : ascii) (s : string)
    (st : regexp.caps) :
  regexp.run (regexp.PlusNot c :: p) (String a s) st =
  if Ascii.eqb a c then None
  else match regexp.run (regexp.PlusNot c :: p) s st with
       | Some r => Some r
       | None => regexp.run p s st
       end.
Proof. reflexivity. Qed.

(** A repetition that succeeds has eaten at least one byte before the
    rest of the program ran. *)
Lemma run_PlusNot_inv (c : ascii) (p : regexp.Regexp) (s : string) (st : regexp.caps)
    (res : string * regexp.caps) :
  regexp.run (regexp.PlusNot c :: p) s st = Some res ->
  exists s1, (String.length s1 < String.length s)%nat /\ regexp.run p s1 st = Some res.
Proof.
  induction s as [| a s IH]; [discriminate |].
  rewrite run_PlusNot_step.
  destruct (Ascii.eqb a c); [discriminate |].
  destruct (regexp.run (regexp.PlusNot c :: p) s st) as [r |] eqn:Hmore.
  - intros [= <-]. destruct (IH eq_refl) as (s1 & Hlen & Hrun).
    exists s1. simpl. split; [lia | exact Hrun].
  - intros Hrun. exists s. simpl. split; [lia | exact Hrun].
Qed.

Lemma run_cap_free (p : regexp.Regexp) :
  cap_free p = true ->
  forall s st r st', regexp.run p s st = Some (r, st') -> st' = st.
Proof.
  induction p as [| n p IH]; intros Hfree s st r st' Hrun.
  - simpl in Hrun. congruence.
  - simpl in Hfree. apply andb_true_iff in Hfree as [Hn Hfree].
    destruct n as [alts | c | |]; try discriminate.
    + simpl in Hrun. destruct (regexp.first_alt alts s); [| discriminate]. eauto.
    + apply run_PlusNot_inv in Hrun as (s1 & _ & Hrun). eauto.
Qed.

Lemma take_str_nonempty (n : nat) (s : string) :
  (0 < n)%nat -> (0 < String.length s)%nat -> regexp.take_str n s <> EmptyString.
Proof.
  destruct n, s; simpl; intros; try lia. discriminate.
Qed.

Lemma between_nonempty (from to : string) :
  (String.length to < String.length from)%nat -> regexp.between from to <> EmptyString.
Proof.
  intros H. unfold regexp.between. apply take_str_nonempty; lia.
Qed.

(** A program with one group around a repetition captures a non-empty
    text whenever it matches. *)
Lemma run_group_nonempty (pre post : regexp.Regexp) (c : ascii) :
  cap_free pre = true -> cap_free post = true ->
  forall s st r st',
    regexp.run (pre ++ regexp.CapOpen :: regexp.PlusNot c :: regexp.CapClose :: post) s st
    = Some (r, st') ->
    exists v, snd st' = Some v /\ v <> EmptyString.
Proof.
  intros Hpre Hpost.
  induction pre as [| n pre IH]; intros s st r st' Hrun.
  - change (regexp.run (regexp.PlusNot c :: regexp.CapClose :: post) s (Some s, snd st)
            = Some (r, st')) in Hrun.
    apply run_PlusNot_inv in Hrun as (s1 & Hlen & Hrun).
    change (regexp.run post s1 (None, Some (regexp.between s s1)) = Some (r, st')) in Hrun.
    apply (run_cap_free post Hpost) in Hrun. subst st'.
    exists (regexp.between s s1). split; [reflexivity |].
    apply between_nonempty, Hlen.
  - simpl in Hpre. apply andb_true_iff in Hpre as [Hn Hpre].
    destruct n as [alts | c' | |]; try discriminate.
    + simpl in Hrun. destruct (regexp.first_alt alts s); [| discriminate]. eauto.
    + rewrite <- app_comm_cons in Hrun.
      apply run_PlusNot_inv in Hrun as (s1 & _ & Hrun). eauto.
Qed.

(** The slice [FindStringSubmatch] returns is nil or stems from a match
    at some position. *)
Lemma FindStringSubmatch_inv (p : regexp.Regexp) (s : string) :
  regexp.FindStringSubmatch p s = [] \/
  exists s0 r, regexp.run p s0 (None, None) = Some r /\
               regexp.FindStringSubmatch p s = regexp.submatches p s0 r.
Proof.
  induction s as [| a s IH]; simpl.
  - destruct (regexp.run p EmptyString (None, None)) as [r |] eqn:Hrun; eauto.
  - destruct (regexp.run p (String a s) (None, None)) as [r |] eqn:Hrun; eauto.
Qed.

Lemma split_group_app (p pre post : regexp.Regexp) (c : ascii) :
  split_group p = Some (pre, c, post) ->
  p = pre ++ regexp.CapOpen :: regexp.PlusNot c :: regexp.CapClose :: post.
Proof.
  revert pre. induction p as [| n p IH]; intros pre H; [discriminate |].
  assert (Hrec : match split_group p with
                 | Some (pre', c', post') => Some (n :: pre', c', post')
                 | None => None
                 end = Some (pre, c, post) ->
                 n :: p = pre ++ regexp.CapOpen :: regexp.PlusNot c :: regexp.CapClose :: post).
  { destruct (split_group p) as [[[pre' c'] post'] |]; [| discriminate].
    intros [= <- <- <-]. simpl. f_equal. apply IH. reflexivity. }
  destruct n as [alts | c0 | |]; try (apply Hrec; exact H).
  destruct p as [| [alts | c1 | |] p1]; try (apply Hrec; exact H).
  destruct p1 as [| [alts | c2 | |] p2]; try (apply Hrec; exact H).
  simpl in H. injection H as <- <- <-. reflexivity.
Qed.

Lemma grouped_by_split (p pre post : regexp.Regexp) (c : ascii) :
  split_group p = Some (pre, c, post) ->
  cap_free pre = true -> cap_free post = true -> grouped p.
Proof.
  intros H Hpre Hpost. exists pre, c, post. eauto using split_group_app.
Qed.

(** Both patterns of the table compile, to programs of that shape. *)
Lemma table_compiles (name re : string) :
  enrichmentTable !! name = Some re ->
  (name = "description" \/ name = "image")%string /\
  exists p, regexp.MustCompile re = Some p /\ grouped p.
Proof.
  unfold enrichmentTable. intros H.
  apply lookup_insert_Some in H as [[<- <-] | [_ H]].
  - split; [auto |]. eexists. split; [vm_compute; reflexivity |].
    eapply grouped_by_split; vm_compute; reflexivity.
  - apply lookup_singleton_Some in H as [<- <-].
    split; [auto |]. eexists. split; [vm_compute; reflexivity |].
    eapply grouped_by_split; vm_compute; reflexivity.
Qed.

Lemma grouped_has_group (p : regexp.Regexp) : grouped p -> regexp.has_group p = true.
Proof.
  intros (pre & c & post & -> & _ & _). unfold regexp.has_group.
  rewrite existsb_app. simpl. apply orb_true_r.
Qed.

Lemma submatch_nonempty (p : regexp.Regexp) (html : string) :
  grouped p ->
  let matches := regexp.FindStringSubmatch p html in
  (1 <? length matches)%nat = false \/
  ((1 <? length matches)%nat = true /\ nth 1 matches EmptyString <> EmptyString).
Proof.
  intros Hg matches. subst matches.
  destruct (FindStringSubmatch_inv p html) as [-> | (s0 & [r st'] & Hrun & ->)].
  - left. reflexivity.
  - right. unfold regexp.submatches. rewrite (grouped_has_group p Hg). simpl.
    destruct Hg as (pre & c & post & -> & Hpre & Hpost).
    destruct (run_group_nonempty pre post c Hpre Hpost _ _ _ _ Hrun) as (v & -> & Hv).
    split; [reflexivity | exact Hv].
Qed.

(** ** Enrichment extraction *)

(** One turn of the loop either leaves the map alone or stores a
    non-empty value under the entry's name; it never panics. *)
Lemma extract_step_table (html : string) (m : gmap string string) (name re : string) :
  enrichmentTable !! name = Some re ->
  exists m', extract_step html m (name, re) = Some m' /\
             (m' = m \/ exists v, v <> EmptyString /\ m' = <[name := v]> m).
Proof.
  intros Htab. destruct (table_compiles name re Htab) as (_ & p & Hcomp & Hg).
  unfold extract_step. simpl. rewrite Hcomp.
  destruct (submatch_nonempty p html Hg) as [-> | [-> Hne]].
  - exists m. auto.
  - eexists. split; [reflexivity |]. right. eauto.
Qed.

Lemma extract_range_well_formed (html : string) (order : list (string * string)) :
  (forall name re, (name, re) ∈ order -> enrichmentTable !! name = Some re) ->
  forall m, well_formed m ->
            exists m', extract_range html order m = Some m' /\ well_formed m'.
Proof.
  induction order as [| [name re] order IH]; intros Hin m Hm; simpl.
  - eauto.
  - assert (Htab : enrichmentTable !! name = Some re) by (apply Hin; left).
    destruct (extract_step_table html m name re Htab) as (m1 & -> & Hm1).
    apply IH.
    + intros name' re' H. apply Hin. right. exact H.
    + destruct Hm1 as [-> | (v & Hv & ->)]; [exact Hm |].
      intros k w Hk. apply lookup_insert_Some in Hk as [[<- <-] | [_ Hk]].
      * split; [| exact Hv]. apply (table_compiles name re Htab).
      * apply Hm, Hk.
Qed.

Lemma range_order_in (order : list (string * string)) (name re : string) :
  range_order order -> (name, re) ∈ order -> enrichmentTable !! name = Some re.
Proof.
  unfold range_order. intros Hperm Hin. rewrite Hperm in Hin.
  apply elem_of_map_to_list in Hin. exact Hin.
Qed.

(** The loop of [extractEnrichments] run from the empty map: it ends,
    with a map that has known keys and no empty value. *)
Lemma extractEnrichments_total (order : list (string * string)) (html : string) :
  range_order order ->
  exists m : gmap string string,
    extractEnrichments order html = Some (m, None) /\ well_formed m.
Proof.
  intros Horder.
  destruct (extract_range_well_formed html order) with (m := (∅ : gmap string string))
    as (m & Hrun & Hm).
  - intros name re. apply range_order_in, Horder.
  - intros k v Hk. rewrite lookup_empty in Hk. discriminate.
  - exists m. unfold extractEnrichments. rewrite Hrun. split; [reflexivity | exact Hm].
Qed.

(** C10: whatever the page and whatever the iteration order,
    [extractEnrichments] returns a map and a nil error; the keys of the
    map are among "description" and "image" and every value it holds is
    a non-empty string. *)
Theorem extractEnrichments_well_formed (order : list (string * string)) (html : string) :
  range_order order ->
  exists m : gmap string string,
    extractEnrichments order html = Some (m, None) /\
    dom m ⊆ ({[ "description"; "image" ]} : gset string) /\
    (forall k v, m !! k = Some v -> v <> EmptyString).
Proof.
  intros Horder.
  destruct (extractEnrichments_total order html Horder) as (m & Hrun & Hm).
  exists m. split; [exact Hrun |]. split.
  - intros k Hk. apply elem_of_dom in Hk as [v Hk].
    destruct (Hm k v Hk) as [[-> | ->] _]; set_solver.
  - intros k v Hk. apply (Hm k v Hk).
Qed.

Lemma extractEnrichments_well_formed_witness :
  exists m : gmap string string,
    extractEnrichments (map_to_list enrichmentTable)
      example_html = Some (m, None) /\
    dom m ⊆ ({[ "description"; "image" ]} : gset string) /\
    (forall k v, m !! k = Some v -> v <> EmptyString).
Proof.
  apply (extractEnrichments_well_formed (map_to_list enrichmentTable)).
  unfold range_order. reflexivity.
Defined.

(** The expectations of [Test_ExtractEnrichments] hold of the model, in
    both iteration orders. *)
Lemma extractEnrichments_test_cases :
  Forall (fun c => extractEnrichments (map_to_list enrichmentTable) c.1 = Some (c.2, None) /\
                   extractEnrichments (reverse (map_to_list enrichmentTable)) c.1
                   = Some (c.2, None))
         test_bodies.
Proof. repeat constructor; vm_compute; reflexivity. Qed.

(** Two turns for different names can be taken in either order. *)
Lemma extract_step_swap (html : string) (m : gmap string string) (x y : string * string) :
  x.1 <> y.1 ->
  match extract_step html m x with
  | Some m' => extract_step html m' y
  | None => None
  end =
  match extract_step html m y with
  | Some m' => extract_step html m' x
  | None => None
  end.
Proof.
  intros Hne. unfold extract_step.
  destruct (regexp.MustCompile x.2) as [px |], (regexp.MustCompile y.2) as [py |];
    try reflexivity.
  - destruct (1 <? length (regexp.FindStringSubmatch px html))%nat,
             (1 <? length (regexp.FindStringSubmatch py html))%nat;
      try reflexivity.
    f_equal. apply insert_insert_ne. congruence.
  - destruct (1 <? length (regexp.FindStringSubmatch px html))%nat; reflexivity.
  - destruct (1 <? length (regexp.FindStringSubmatch py html))%nat; reflexivity.
Qed.

Lemma extract_range_permutation (html : string) (order order' : list (string * string)) :
  order ≡ₚ order' ->
  NoDup order.*1 ->
  forall m, extract_range html order m = extract_range html order' m.
Proof.
  induction 1 as [| x l l' Hperm IH | x y l | l l' l'' H1 IH1 H2 IH2];
    intros Hnd m.
  - reflexivity.
  - simpl. destruct (extract_step html m x); [| reflexivity].
    apply IH. rewrite fmap_cons in Hnd. apply NoDup_cons in Hnd as [_ Hnd]. exact Hnd.
  - simpl. rewrite !fmap_cons in Hnd.
    apply NoDup_cons in Hnd as [Hy _].
    assert (Hne : y.1 <> x.1) by (intros Heq; apply Hy; rewrite Heq; left).
    pose proof (extract_step_swap html m y x Hne) as Hswap.
    destruct (extract_step html m y) as [my |], (extract_step html m x) as [mx |];
      simpl in *; try congruence.
    + rewrite Hswap.
      destruct (extract_step html mx y); reflexivity.
    + destruct (extract_step html my x); [discriminate | reflexivity].
    + destruct (extract_step html mx y); [discriminate | reflexivity].
  - rewrite IH1 by exact Hnd. apply IH2.
    rewrite <- H1. exact Hnd.
Qed.

(** C9: the result of [extractEnrichments] depends on the page alone:
    two runs on the same HTML return the same map (and a nil error),
    whichever order the runtime chooses for the table in each run. *)
Theorem extractEnrichments_deterministic
    (order1 order2 : list (string * string)) (html : string) :
  range_order order1 -> range_order order2 ->
  exists m : gmap string string,
    extractEnrichments order1 html = Some (m, None) /\
    extractEnrichments order2 html = Some (m, None).
Proof.
  intros H1 H2.
  destruct (extractEnrichments_total order1 html H1) as (m & Hm & _).
  exists m. split; [exact Hm |].
  rewrite <- Hm. unfold extractEnrichments.
  rewrite (extract_range_permutation html order2 order1); [reflexivity | |].
  - unfold range_order in *. rewrite H1, H2. reflexivity.
  - unfold range_order in H2. rewrite H2. apply NoDup_fst_map_to_list.
Qed.

Lemma extractEnrichments_deterministic_witness :
  exists m : gmap string string,
    extractEnrichments (map_to_list enrichmentTable)
      example_html_image = Some (m, None) /\
    extractEnrichments (reverse (map_to_list enrichmentTable))
      example_html_image = Some (m, None).
Proof.
  apply (extractEnrichments_deterministic (map_to_list enrichmentTable)
           (reverse (map_to_list enrichmentTable))).
  - unfold range_order. reflexivity.
  - unfold range_order. apply reverse_Permutation.
Defined.

(** ** The enrichment step *)

Lemma set_fields_other (item : NewsItem) (rows : list NewsItem) :
  filter (fun r => ID r =? ID item) rows = [] ->
  map (set_fields item) rows = rows.
Proof.
  induction rows as [| r rows IH]; [reflexivity |].
  rewrite filter_cons. simpl. unfold set_fields at 1.
  destruct (ID r =? ID item); simpl.
  - discriminate.
  - intros H. f_equal. apply IH, H.
Qed.

Lemma SaveNewsItem_rows (d d' : DB) (item : NewsItem) (err : option error) :
  SaveNewsItem d item = (d', err) ->
  match err with
  | Some _ => news d' = news d
  | None =>
      news d' = map (set_fields item) (news d) /\
      exists r, r ∈ news d /\ ID r = ID item
  end.
Proof.
  unfold SaveNewsItem, update_news.
  destruct (db_fault d (db_calls d)).
  { intros [= <- <-]. reflexivity. }
  destruct (links_unique (map (set_fields item) (news d))).
  2:{ intros [= <- <-]. reflexivity. }
  destruct (filter (fun r => ID r =? ID item) (news d)) as [| r rest] eqn:Hf.
  - simpl. intros [= <- <-]. simpl. apply set_fields_other, Hf.
  - change (Z.of_nat (length (r :: rest)) =? 0) with (Z.pos (Pos.of_succ_nat (length rest)) =? 0).
    simpl. intros [= <- <-]. simpl. split; [reflexivity |].
    assert (Hin : r ∈ filter (fun r => ID r =? ID item) (news d)) by (rewrite Hf; left).
    apply list_elem_of_filter in Hin as [Hid Hin].
    exists r. split; [exact Hin |]. apply Z.eqb_eq, Is_true_true, Hid.
Qed.

Lemma GetNewsItem_found (d d1 : DB) (link : string) (item : option NewsItem) :
  GetNewsItem d link = (d1, item, None) ->
  news d1 = news d /\
  exists it, item = Some it /\
             find (fun r => String.eqb (Link r) link) (news d) = Some it.
Proof.
  unfold GetNewsItem, select_by_link.
  destruct (db_fault d (db_calls d)) as [e |].
  { destruct (errors_Is e sqlErrNoRows); discriminate. }
  destruct (find (fun r => String.eqb (Link r) link) (news d)) as [r |].
  - intros [= <- <-]. eauto.
  - simpl. discriminate.
Qed.

Lemma GetNewsItem_rows (d d1 : DB) (link : string) (item : option NewsItem)
    (err : option error) :
  GetNewsItem d link = (d1, item, err) -> news d1 = news d.
Proof.
  unfold GetNewsItem, select_by_link.
  destruct (db_fault d (db_calls d)) as [e |].
  { destruct (errors_Is e sqlErrNoRows); intros [= <- <- <-]; reflexivity. }
  destruct (find (fun r => String.eqb (Link r) link) (news d)) as [r |].
  - intros [= <- <- <-]. reflexivity.
  - simpl. intros [= <- <- <-]. reflexivity.
Qed.

(** C2, as stated, does not hold: a stored item with a description and
    an image, whose page carries no [meta] tags, is stored back with
    both fields empty. *)
Lemma enrichment_clears_fields :
  ~ (forall (n : Network) (order : list (string * string)) (d d' : DB)
            (link : string) (err : option error),
        range_order order ->
        part_004.EnrichNewsItem n order d link = Some (d', err) ->
        forall r, r ∈ news d ->
                  exists r', r' ∈ news d' /\ ID r' = ID r /\
                             (Description r <> EmptyString -> Description r' <> EmptyString) /\
                             (Image r <> EmptyString -> Image r' <> EmptyString)).
Proof.
  intros H.
  pose (row := {| ID := 1; Title := "title"; Link := "http://example.com/1";
                  Published := 0; Description := "old text"; Image := "old.jpg" |}).
  pose (d := {| news := [row]; serial := 1; db_calls := 0; db_fault := fun _ => None |}).
  pose (n := {| NewRequest := fun _ => None;
                Do := fun _ => inl {| StatusCode := 200;
                                      ReadAll := ("<html></html>"%string, None) |} |}).
  pose (row' := {| ID := 1; Title := "title"; Link := "http://example.com/1";
                   Published := 0; Description := EmptyString; Image := EmptyString |}).
  pose (d' := {| news := [row']; serial := 1; db_calls := 2; db_fault := fun _ => None |}).
  assert (Hrun : part_004.EnrichNewsItem n (map_to_list enrichmentTable) d
                   "http://example.com/1" = Some (d', None)) by (vm_compute; reflexivity).
  destruct (H n _ d d' _ None (reflexivity _) Hrun row) as (r' & Hin & _ & Hdesc & _).
  { left. }
  apply list_elem_of_singleton in Hin. subst r'.
  apply Hdesc; [discriminate | reflexivity].
Qed.

(** Under any iteration order of the table, the step returns. *)
Lemma EnrichNewsItem_returns (n : Network) (order : list (string * string))
    (d : DB) (link : string) :
  range_order order -> is_Some (part_004.EnrichNewsItem n order d link).
Proof.
  intros Horder. unfold part_004.EnrichNewsItem.
  destruct (GetNewsItem d link) as [[d1 item] [e |]] eqn:Hget.
  { destruct item; simpl; eauto. }
  apply GetNewsItem_found in Hget as (_ & it & -> & _).
  unfold Enrich, GetEnrichments.
  destruct (getContents n (Link it)) as [body [e |]]; [simpl; eauto |].
  destruct (extractEnrichments_total order body Horder) as (m & -> & _).
  destruct (SaveNewsItem d1 _) as [d2 [e |]]; simpl; eauto.
Qed.

Lemma map_index_nonempty (m : gmap string string) (k : string) :
  (forall k v, m !! k = Some v -> v <> EmptyString) ->
  map_index m k <> EmptyString <-> is_Some (m !! k).
Proof.
  intros Hval. unfold map_index.
  destruct (m !! k) as [v |] eqn:Hk; simpl.
  - split; [eauto | intros _; eapply Hval, Hk].
  - split; [congruence | intros [v Hv]; discriminate].
Qed.

(** C2 (amended): the enrichment step overwrites.  When it succeeds,
    every stored row of the item carries, as description and as image,
    what the extractor found on the fetched page, and the empty string
    for a field it did not find; a non-empty field therefore stays
    non-empty exactly when the page yields a match for it.  When the
    step fails (load, fetch or update), the stored rows are unchanged. *)
Theorem EnrichNewsItem_overwrites (n : Network) (order : list (string * string))
    (d d' : DB) (link : string) (err : option error) :
  range_order order ->
  part_004.EnrichNewsItem n order d link = Some (d', err) ->
  match err with
  | Some _ => news d' = news d
  | None =>
      exists (item : NewsItem) (html : string) (m : gmap string string),
        find (fun r => String.eqb (Link r) link) (news d) = Some item /\
        getContents n (Link item) = (html, None) /\
        extractEnrichments order html = Some (m, None) /\
        (exists r', r' ∈ news d' /\ ID r' = ID item) /\
        (forall r', r' ∈ news d' -> ID r' = ID item ->
                    Description r' = map_index m "description" /\
                    Image r' = map_index m "image" /\
                    (Description r' <> EmptyString <-> is_Some (m !! "description")) /\
                    (Image r' <> EmptyString <-> is_Some (m !! "image")))
  end.
Proof.
  intros Horder. unfold part_004.EnrichNewsItem.
  destruct (GetNewsItem d link) as [[d1 item] [e |]] eqn:Hget.
  { destruct item; intros [= <- <-]; eapply GetNewsItem_rows, Hget. }
  apply GetNewsItem_found in Hget as (Hrows & it & -> & Hfind).
  unfold Enrich, GetEnrichments.
  destruct (getContents n (Link it)) as [body [e |]] eqn:Hfetch.
  { intros [= <- <-]. exact Hrows. }
  destruct (extractEnrichments_total order body Horder) as (m & Hext & Hwf).
  assert (Hval : forall k v, m !! k = Some v -> v <> EmptyString)
    by (intros k v Hk; apply (Hwf k v Hk)).
  rewrite Hext.
  destruct (SaveNewsItem d1 _) as [d2 [e |]] eqn:Hsave; intros [= <- <-];
    apply SaveNewsItem_rows in Hsave.
  { rewrite Hsave. exact Hrows. }
  destruct Hsave as (Hnews & r & Hr & Hid). simpl in Hid.
  exists it, body, m.
  split; [exact Hfind |]. split; [exact Hfetch |]. split; [exact Hext |]. split.
  - exists (set_fields {| ID := ID it; Title := Title it; Link := Link it;
                          Published := Published it;
                          Description := map_index m "description";
                          Image := map_index m "image" |} r).
    split.
    + rewrite Hnews. apply list_elem_of_fmap. exists r. split; [reflexivity | exact Hr].
    + unfold set_fields. destruct (ID r =? _); simpl; exact Hid.
  - intros r' Hin Hid'.
    rewrite Hnews in Hin. apply list_elem_of_fmap in Hin as (r0 & -> & _).
    revert Hid'. unfold set_fields. simpl.
    destruct (Z.eqb_spec (ID r0) (ID it)); simpl; [intros _ | contradiction].
    split; [reflexivity |]. split; [reflexivity |].
    split; apply map_index_nonempty, Hval.
Qed.

Lemma EnrichNewsItem_overwrites_witness :
  exists (item : NewsItem) (html : string) (m : gmap string string),
    find (fun r => String.eqb (Link r) "http://example.com/1") (news example_db)
      = Some item /\
    getContents example_page (Link item) = (html, None) /\
    extractEnrichments (map_to_list enrichmentTable) html = Some (m, None) /\
    (exists r', r' ∈ news example_db_enriched /\ ID r' = ID item) /\
    (forall r', r' ∈ news example_db_enriched -> ID r' = ID item ->
                Description r' = map_index m "description" /\
                Image r' = map_index m "image" /\
                (Description r' <> EmptyString <-> is_Some (m !! "description")) /\
                (Image r' <> EmptyString <-> is_Some (m !! "image"))).
Proof.
  apply (EnrichNewsItem_overwrites example_page (map_to_list enrichmentTable)
           example_db example_db_enriched "http://example.com/1" None).
  - unfold range_order. reflexivity.
  - vm_compute. reflexivity.
Defined.

(** ** One ingestion cycle *)

Section Cycle.

Variable CreateNews : DB -> option NewsItem -> DB * option NewsItem * option error.

(** [CreateNews] writes at most the identifier of the pointee. *)
Hypothesis CreateNews_link :
  forall d item d' item' err,
    CreateNews d (Some item) = (d', item', err) ->
    Link (default item item') = Link item.





End Cycle.





(** In the example the duplicate is skipped and the new item is saved
    and published. *)
Lemma example_cycle :
  let '(w', saved, skipped) := part_004.save_items example_items example_world in
  saved = 1 /\ skipped = 1 /\ queue (mq w') = ["http://example.com/2"%string] /\
  map Link (news (db w')) = ["http://example.com/1"; "http://example.com/2"]%string.
Proof. vm_compute. auto. Qed.

(** ** The retry counter of the parsing job *)

Lemma runs_snoc (l : list bool) (b : bool) : runs (l ++ [b]) = run_step (runs l) b.
Proof. unfold runs. rewrite fold_left_app. reflexivity. Qed.

Lemma attempts_snoc (evs : list event) (e : event) :
  attempts (evs ++ [e]) = attempts evs ++ attempts [e].
Proof. unfold attempts. apply omap_app. Qed.

Lemma attempts_save_items CreateNews (items : list NewsItem) :
  forall acc : World * Z * Z,
    attempts (trace (fold_left (service_go.save_item CreateNews) items acc).1.1) =
    attempts (trace acc.1.1).
Proof.
  induction items as [| item items IH]; intros [[w saved] skipped]; [reflexivity |].
  cbn [fold_left]. rewrite IH. unfold service_go.save_item.
  destruct (CreateNews (db w) (Some item)) as [[d' item'] [e |]].
  - destruct (errors_Is e ErrAlreadyExists); simpl;
      rewrite attempts_snoc; simpl; apply app_nil_r.
  - destruct (Publish _ _) as [q' perr]. simpl.
    rewrite !attempts_snoc. simpl. rewrite !app_nil_r. reflexivity.
Qed.

Section ServiceGoRetry.

Variable ParseString : string -> list (string * string) + error.
Variable RssUrl : string.
Variable CreateNews : DB -> option NewsItem -> DB * option NewsItem * option error.

Lemma service_go_turn (retry : Z) (w : World) (t : Tick) :
  job_inv 3 retry w ->
  match service_go.turn_body ParseString RssUrl CreateNews retry w t with
  | Continue retry' w' => job_inv 3 retry' w'
  | Return _ w' => (longest_failing_run (trace w') <= 4)%nat
  end.
Proof.
  intros (best & Hruns & Hretry & Hbest). unfold service_go.turn_body.
  destruct (GetNews ParseString (net t) RssUrl) as [items [e |]].
  - assert (Hadd : GoInt.add retry 1 = retry + 1).
    { apply wrap_small. unfold GoInt.in_range. rewrite MinInt_value, MaxInt_value. lia. }
    rewrite Hadd.
    assert (Hruns' : runs (attempts (trace (record w (EvGetNews (Some e)))))
                     = (S (Z.to_nat retry), Nat.max best (S (Z.to_nat retry)))).
    { simpl. rewrite attempts_snoc.
      change (attempts [EvGetNews (Some e)]) with [true].
      rewrite runs_snoc, Hruns. reflexivity. }
    unfold service_go.limit.
    destruct (Z.gtb_spec (retry + 1) 3) as [Hgt | Hle].
    + unfold longest_failing_run. rewrite Hruns'. simpl. lia.
    + destruct (cancelled t).
      * unfold longest_failing_run. rewrite Hruns'. simpl. lia.
      * exists (Nat.max best (S (Z.to_nat retry))). rewrite Hruns'.
        split; [f_equal; lia |]. lia.
  - pose proof (attempts_save_items CreateNews items (record w (EvGetNews None), 0, 0))
      as Hsame.
    unfold service_go.save_items.
    destruct (fold_left _ items _) as [[w' saved] skipped]. simpl in Hsame.
    rewrite attempts_snoc in Hsame.
    change (attempts [EvGetNews None]) with [false] in Hsame.
    assert (Hruns' : runs (attempts (trace w')) = (0%nat, best)).
    { rewrite Hsame, runs_snoc, Hruns. reflexivity. }
    destruct (cancelled t).
    + unfold longest_failing_run. rewrite Hruns'. simpl. lia.
    + exists best. rewrite Hruns'. split; [reflexivity |]. lia.
Qed.

Lemma service_go_loop (ticks : list Tick) :
  forall (retry : Z) (w : World),
    job_inv 3 retry w ->
    let '(w', _, returned) :=
      job_loop (service_go.turn_body ParseString RssUrl CreateNews) retry w ticks in
    (longest_failing_run (trace w') <= 4)%nat /\
    (returned = false -> (longest_failing_run (trace w') <= 3)%nat).
Proof.
  induction ticks as [| t ticks IH]; intros retry w Hinv.
  - simpl. destruct Hinv as (best & Hruns & _ & Hbest).
    unfold longest_failing_run. rewrite Hruns. simpl. lia.
  - simpl. pose proof (service_go_turn retry w t Hinv) as Hturn.
    destruct (service_go.turn_body ParseString RssUrl CreateNews retry w t)
      as [retry' w' | retry' w'].
    + apply IH, Hturn.
    + split; [exact Hturn | discriminate].
Qed.

(** The job of service.go never makes a fifth failing attempt in a
    row. *)
Lemma service_go_at_most_four (ticks : list Tick) (w : World) :
  attempts (trace w) = [] ->
  (longest_failing_run
     (trace (service_go.ParsingJob ParseString RssUrl CreateNews ticks w).1.1) <= 4)%nat.
Proof.
  intros Hw. unfold service_go.ParsingJob.
  pose proof (service_go_loop ticks 0 w) as H.
  destruct (job_loop _ 0 w ticks) as [[w' retry'] returned].
  apply H. exists 0%nat. rewrite Hw. split; [reflexivity |]. lia.
Qed.

End ServiceGoRetry.

Section Part004Retry.

Variable ParseString : string -> list (string * string) + error.
Variable RssUrl : string.

Lemma part_004_turn (retry : Z) (w : World) (t : Tick) :
  job_inv 4 retry w ->
  match part_004.turn_body ParseString RssUrl retry w t with
  | Continue retry' w' => job_inv 4 retry' w'
  | Return _ w' => (longest_failing_run (trace w') <= 5)%nat
  end.
Proof.
  intros (best & Hruns & Hretry & Hbest). unfold part_004.turn_body.
  destruct (GetNews ParseString (net t) RssUrl) as [items [e |]].
  - assert (Hadd : GoInt.add retry 1 = retry + 1).
    { apply wrap_small. unfold GoInt.in_range. rewrite MinInt_value, MaxInt_value. lia. }
    assert (Hruns' : runs (attempts (trace (record w (EvGetNews (Some e)))))
                     = (S (Z.to_nat retry), Nat.max best (S (Z.to_nat retry)))).
    { simpl. rewrite attempts_snoc.
      change (attempts [EvGetNews (Some e)]) with [true].
      rewrite runs_snoc, Hruns. reflexivity. }
    unfold part_004.limit.
    destruct (Z.gtb_spec retry 3) as [Hgt | Hle].
    + unfold longest_failing_run. rewrite Hruns'. simpl. lia.
    + rewrite Hadd. destruct (cancelled t).
      * unfold longest_failing_run. rewrite Hruns'. simpl. lia.
      * exists (Nat.max best (S (Z.to_nat retry))). rewrite Hruns'.
        split; [f_equal; lia |]. lia.
  - pose proof (attempts_save_items CreateNewsItem items (record w (EvGetNews None), 0, 0))
      as Hsame.
    unfold part_004.save_items.
    change part_004.save_item with (service_go.save_item CreateNewsItem).
    destruct (fold_left _ items _) as [[w' saved] skipped]. simpl in Hsame.
    rewrite attempts_snoc in Hsame.
    change (attempts [EvGetNews None]) with [false] in Hsame.
    assert (Hruns' : runs (attempts (trace w')) = (0%nat, best)).
    { rewrite Hsame, runs_snoc, Hruns. reflexivity. }
    destruct (cancelled t).
    + unfold longest_failing_run. rewrite Hruns'. simpl. lia.
    + exists best. rewrite Hruns'. split; [reflexivity |]. lia.
Qed.

Lemma part_004_loop (ticks : list Tick) :
  forall (retry : Z) (w : World),
    job_inv 4 retry w ->
    (longest_failing_run
       (trace (job_loop (part_004.turn_body ParseString RssUrl) retry w ticks).1.1)
     <= 5)%nat.
Proof.
  induction ticks as [| t ticks IH]; intros retry w Hinv.
  - simpl. destruct Hinv as (best & Hruns & _ & Hbest).
    unfold longest_failing_run. rewrite Hruns. simpl. lia.
  - simpl. pose proof (part_004_turn retry w t Hinv) as Hturn.
    destruct (part_004.turn_body ParseString RssUrl retry w t) as [retry' w' | retry' w'].
    + apply IH, Hturn.
    + exact Hturn.
Qed.

(** The job of the later revision stops at five failing attempts in a
    row. *)
Lemma part_004_at_most_five (ticks : list Tick) (w : World) :
  attempts (trace w) = [] ->
  (longest_failing_run
     (trace (part_004.ParsingJob ParseString RssUrl ticks w).1.1) <= 5)%nat.
Proof.
  intros Hw. unfold part_004.ParsingJob. apply part_004_loop.
  exists 0%nat. rewrite Hw. split; [reflexivity |]. lia.
Qed.

End Part004Retry.

(** C3: in the revision with [EnrichNewsItem] the test [retry > limit]
    comes before [retry++].  After four failures in a row the counter is
    4, beyond the ceiling, and the job has not returned; it backs off
    once more and makes a fifth failing attempt, on which it returns. *)
Theorem ParsingJob_fifth_attempt
    (ParseString : string -> list (string * string) + error) (RssUrl : string) :
  let four := part_004.ParsingJob ParseString RssUrl (repeat failing_tick 4) empty_world in
  let five := part_004.ParsingJob ParseString RssUrl (repeat failing_tick 5) empty_world in
  four.2 = false /\ four.1.2 = 4 /\ part_004.limit = 3 /\
  five.2 = true /\
  attempts (trace five.1.1) = repeat true 5 /\
  longest_failing_run (trace five.1.1) = 5%nat.
Proof. cbv zeta. repeat split. Qed.

(** On the same five turns the job of service.go returns on the fourth
    failure. *)
Lemma service_go_fourth_attempt
    (ParseString : string -> list (string * string) + error) (RssUrl : string)
    (CreateNews : DB -> option NewsItem -> DB * option NewsItem * option error) :
  let five :=
    service_go.ParsingJob ParseString RssUrl CreateNews (repeat failing_tick 5) empty_world in
  five.2 = true /\ attempts (trace five.1.1) = repeat true 4.
Proof. cbv zeta. repeat split. Qed.

(* ===================================================================== *)
(** * Further properties *)
(* ===================================================================== *)

(** ** Filters and metadata *)

(** X1: normalisation always ends in filters with page and size of at
    least 1, a second normalisation changes nothing, and filters that
    are already that way pass unchanged. *)
Theorem validate_idempotent (f : Filters) :
  let g := validate f defaultFilters in
  1 <= Page g /\ 1 <= PageSize g /\
  validate g defaultFilters = g /\
  (1 <= Page f /\ 1 <= PageSize f -> g = f).
Proof.
  cbv zeta. destruct f as [p s]. rewrite !validate_fields. simpl.
  destruct (Z.ltb_spec p 1), (Z.ltb_spec s 1); simpl;
    repeat match goal with |- _ /\ _ => split end;
    try lia; try reflexivity;
    try (intros [? ?]; first [lia | reflexivity]);
    try (f_equal; first [apply Z.ltb_ge in H; rewrite H | apply Z.ltb_ge in H0; rewrite H0];
         reflexivity).
Qed.

Lemma normalized_offset (f : Filters) :
  normalized f -> offset f = (Page f - 1) * PageSize f /\ 0 <= offset f.
Proof.
  intros (Hok & Hp & Hs & Hprod).
  assert (Hrange : GoInt.in_range ((Page f - 1) * PageSize f)).
  { unfold GoInt.in_range. rewrite MinInt_value. split; [nia | exact Hprod]. }
  rewrite (offset_exact f Hok Hrange). split; [reflexivity | nia].
Qed.

(** X2: for filters with page and size of at least 1, as long as the
    products fit into [int], the offset is never negative and the next
    page starts exactly [limit] rows further. *)
Theorem offset_next_page (f : Filters) :
  normalized f ->
  normalized {| Page := Page f + 1; PageSize := PageSize f |} ->
  0 <= offset f /\
  offset {| Page := Page f + 1; PageSize := PageSize f |} = offset f + limit f.
Proof.
  intros Hf Hnext.
  destruct (normalized_offset f Hf) as [-> Hpos].
  destruct (normalized_offset _ Hnext) as [-> _].
  split; [exact Hpos |]. unfold limit. simpl. ring.
Qed.

Lemma validate_idempotent_witness :
  let g := validate {| Page := 0; PageSize := 10 |} defaultFilters in
  1 <= Page g /\ 1 <= PageSize g /\
  validate g defaultFilters = g /\
  (1 <= Page {| Page := 0; PageSize := 10 |} /\
   1 <= PageSize {| Page := 0; PageSize := 10 |} -> g = {| Page := 0; PageSize := 10 |}).
Proof. exact (validate_idempotent {| Page := 0; PageSize := 10 |}). Defined.

Lemma offset_next_page_witness :
  0 <= offset {| Page := 3; PageSize := 5 |} /\
  offset {| Page := 3 + 1; PageSize := 5 |}
  = offset {| Page := 3; PageSize := 5 |} + limit {| Page := 3; PageSize := 5 |}.
Proof.
  apply (offset_next_page {| Page := 3; PageSize := 5 |});
    repeat split; simpl; try discriminate; vm_compute; discriminate.
Defined.

(** ** Reading pages of the table *)

Lemma scan_rows_acc (c : Z) (l : list NewsItem) :
  forall acc : Z * list NewsItem,
    fold_left (fun acc row => (row.1, acc.2 ++ [row.2])) (map (fun r => (c, r)) l) acc
    = (match l with [] => acc.1 | _ => c end, acc.2 ++ l).
Proof.
  induction l as [| r l IH]; intros [n items]; simpl.
  - rewrite app_nil_r. reflexivity.
  - rewrite IH. simpl. rewrite <- app_assoc. destruct l; reflexivity.
Qed.

Lemma scan_rows_count (c : Z) (l : list NewsItem) :
  storage.scan_rows (map (fun r => (c, r)) l) = (match l with [] => 0 | _ => c end, l).
Proof. unfold storage.scan_rows. rewrite scan_rows_acc. reflexivity. Qed.

Lemma ceil_div_le (p n s : Z) : 0 < s -> (p <= ceil_div n s <-> (p - 1) * s < n).
Proof.
  intros Hs. unfold ceil_div. split.
  - intros Hp. pose proof (Z.mul_div_le (n + s - 1) s Hs). nia.
  - intros Hp. apply Z.div_le_lower_bound; lia.
Qed.

Section Pages.

Variable order_by_published : list NewsItem -> list NewsItem.
Hypothesis order_permutes : forall l, order_by_published l ≡ₚ l.

Lemma order_length (l : list NewsItem) : length (order_by_published l) = length l.
Proof. rewrite order_permutes. reflexivity. Qed.

(** What the list query returns when the database answers. *)
Lemma GetNews_page (d : DB) (f : Filters) :
  db_fault d (db_calls d) = None -> 0 <= limit f -> 0 <= offset f ->
  storage.GetNews order_by_published d f =
    (after_statement d, page_rows order_by_published d f,
     calculateMetadata
       (match page_rows order_by_published d f with
        | [] => 0
        | _ => Z.of_nat (length (news d))
        end) (Page f) (PageSize f),
     None).
Proof.
  intros Hfault Hlim Hoff. unfold storage.GetNews, storage.select_page. rewrite Hfault.
  destruct (Z.ltb_spec (limit f) 0); [lia |].
  destruct (Z.ltb_spec (offset f) 0); [lia |].
  rewrite scan_rows_count. reflexivity.
Qed.

Lemma page_rows_empty (d : DB) (f : Filters) :
  normalized f ->
  (page_rows order_by_published d f = [] <->
   Z.of_nat (length (news d)) <= (Page f - 1) * PageSize f).
Proof.
  intros Hf. destruct (normalized_offset f Hf) as [Hoff Hpos].
  destruct Hf as (_ & Hp & Hs & _).
  unfold page_rows, limit. rewrite Hoff in *.
  rewrite <- length_zero_iff_nil, length_take, length_drop, order_length. lia.
Qed.

(** X3: a page that starts at or beyond the end of the table comes back
    as no items, the all-zero metadata and no error. *)
Theorem GetNews_past_the_end (d : DB) (f : Filters) :
  normalized f ->
  db_fault d (db_calls d) = None ->
  Z.of_nat (length (news d)) <= (Page f - 1) * PageSize f ->
  storage.GetNews order_by_published d f = (after_statement d, [], zeroMetadata, None).
Proof.
  intros Hf Hfault Hend.
  destruct (normalized_offset f Hf) as [_ Hpos].
  rewrite GetNews_page; [| exact Hfault | unfold limit; destruct Hf as (_ & _ & ? & _); lia
                         | exact Hpos].
  apply (page_rows_empty d f Hf) in Hend. rewrite Hend. reflexivity.
Qed.

(** The answer for a page within the table. *)
Lemma GetNews_inside (d : DB) (f : Filters) :
  normalized f ->
  db_fault d (db_calls d) = None ->
  (Page f - 1) * PageSize f < Z.of_nat (length (news d)) ->
  Z.of_nat (length (news d)) < 2 ^ 53 ->
  page_rows order_by_published d f <> [] /\
  storage.GetNews order_by_published d f =
    (after_statement d, page_rows order_by_published d f,
     {| CurrentPage := Page f; MPageSize := PageSize f; FirstPage := 1;
        LastPage := ceil_div (Z.of_nat (length (news d))) (PageSize f);
        TotalRecords := Z.of_nat (length (news d)) |},
     None).
Proof.
  intros Hf Hfault Hin Hn.
  destruct (normalized_offset f Hf) as [Hoff Hpos].
  pose proof Hf as (_ & Hp & Hs & _).
  assert (Hne : page_rows order_by_published d f <> []).
  { intros Hnil. apply (page_rows_empty d f Hf) in Hnil. lia. }
  split; [exact Hne |].
  rewrite GetNews_page; [| exact Hfault | unfold limit; lia | exact Hpos].
  destruct (page_rows order_by_published d f) as [| r0 rows']; [congruence |].
  rewrite calculateMetadata_full; [reflexivity | lia |].
  destruct Hf as ((_ & _ & Hmax) & _). lia.
Qed.

(** X4: a page within the table holds at least one and at most
    [PageSize] items, all of them rows of the table; its metadata
    carries the size of the whole table, first page 1, and the
    requested page as current page, which is not beyond the last page. *)
Theorem GetNews_within_the_table (d : DB) (f : Filters) :
  normalized f ->
  db_fault d (db_calls d) = None ->
  (Page f - 1) * PageSize f < Z.of_nat (length (news d)) ->
  Z.of_nat (length (news d)) < 2 ^ 53 ->
  exists items meta,
    storage.GetNews order_by_published d f = (after_statement d, items, meta, None) /\
    (1 <= length items)%nat /\ Z.of_nat (length items) <= PageSize f /\
    (forall r, r ∈ items -> r ∈ news d) /\
    TotalRecords meta = Z.of_nat (length (news d)) /\
    FirstPage meta = 1 /\ CurrentPage meta = Page f /\ MPageSize meta = PageSize f /\
    LastPage meta = ceil_div (Z.of_nat (length (news d))) (PageSize f) /\
    Page f <= LastPage meta.
Proof.
  intros Hf Hfault Hin Hn.
  destruct (GetNews_inside d f Hf Hfault Hin Hn) as [Hne ->].
  destruct (normalized_offset f Hf) as [Hoff Hpos].
  pose proof Hf as (_ & Hp & Hs & _).
  assert (Hlen : length (page_rows order_by_published d f)
                 = Nat.min (Z.to_nat (PageSize f))
                     (length (news d) - Z.to_nat ((Page f - 1) * PageSize f))).
  { unfold page_rows, limit. rewrite Hoff.
    rewrite length_take, length_drop, order_length. reflexivity. }
  eexists _, _. split; [reflexivity |]. simpl.
  split; [lia |]. split; [lia |]. split.
  - intros r Hr. unfold page_rows in Hr.
    apply subseteq_take, subseteq_drop in Hr.
    rewrite <- (order_permutes (news d)). exact Hr.
  - repeat split. apply ceil_div_le; lia.
Qed.


(** X6: the metadata of a page tells whether there is a next one: on a
    page within the table, the current page is below the last page
    exactly when the following page holds items. *)
Theorem GetNews_next_page (d : DB) (f : Filters) :
  let next := {| Page := Page f + 1; PageSize := PageSize f |} in
  normalized f -> normalized next ->
  db_fault d (db_calls d) = None -> db_fault d (S (db_calls d)) = None ->
  (Page f - 1) * PageSize f < Z.of_nat (length (news d)) ->
  Z.of_nat (length (news d)) < 2 ^ 53 ->
  let '(d1, _, meta, _) := storage.GetNews order_by_published d f in
  let '(_, items2, _, _) := storage.GetNews order_by_published d1 next in
  CurrentPage meta < LastPage meta <-> items2 <> [].
Proof.
  cbv zeta. intros Hf Hnext Hfault Hfault2 Hin Hn.
  destruct (GetNews_inside d f Hf Hfault Hin Hn) as [_ ->].
  destruct (normalized_offset _ Hnext) as [Hoff Hpos].
  pose proof Hf as (_ & Hp & Hs & _).
  rewrite GetNews_page; [| exact Hfault2 | unfold limit; simpl; lia | exact Hpos].
  change (page_rows order_by_published (after_statement d) ?g)
    with (page_rows order_by_published d g).
  cbn [CurrentPage LastPage].
  pose proof (page_rows_empty d _ Hnext) as Hempty. simpl in Hempty.
  pose proof (ceil_div_le (Page f + 1) (Z.of_nat (length (news d))) (PageSize f) ltac:(lia))
    as Hceil.
  split.
  - intros Hlt Hnil. apply Hempty in Hnil.
    assert (Page f + 1 <= ceil_div (Z.of_nat (length (news d))) (PageSize f)) by lia.
    apply Hceil in H. lia.
  - intros Hne.
    assert ((Page f + 1 - 1) * PageSize f < Z.of_nat (length (news d))).
    { destruct (Z.ltb_spec ((Page f + 1 - 1) * PageSize f) (Z.of_nat (length (news d))));
        [assumption |].
      exfalso. apply Hne, Hempty. assumption. }
    apply Hceil in H. lia.
Qed.

End Pages.

(** ** Writing and reading back rows *)

Lemma has_link_true (rows : list NewsItem) (link : string) :
  has_link rows link = true <-> exists r, r ∈ rows /\ Link r = link.
Proof.
  unfold has_link. rewrite existsb_exists. split.
  - intros (r & Hin & Heq). exists r. split; [apply list_elem_of_In, Hin |].
    apply String.eqb_eq, Heq.
  - intros (r & Hin & Heq). exists r. split; [apply list_elem_of_In, Hin |].
    apply String.eqb_eq, Heq.
Qed.

Lemma has_link_false (rows : list NewsItem) (link : string) :
  has_link rows link = false <-> link ∉ map Link rows.
Proof.
  rewrite <- not_true_iff_false, has_link_true. split.
  - intros Hno Hin. apply list_elem_of_fmap in Hin as (r & -> & Hr). eauto.
  - intros Hno (r & Hr & <-). apply Hno, list_elem_of_fmap. eauto.
Qed.

Lemma links_unique_NoDup (rows : list NewsItem) :
  links_unique rows = true <-> NoDup (map Link rows).
Proof.
  induction rows as [| r rows IH]; simpl.
  - split; [constructor | reflexivity].
  - rewrite andb_true_iff, negb_true_iff, has_link_false, IH, NoDup_cons. reflexivity.
Qed.


Lemma find_by_id (rows : list NewsItem) (r : NewsItem) :
  NoDup (map ID rows) -> r ∈ rows ->
  find (fun x => ID x =? ID r) rows = Some r.
Proof.
  induction rows as [| x rows IH]; intros Hnd Hin; [inversion Hin |].
  simpl in *. apply NoDup_cons in Hnd as [Hx Hnd].
  destruct (Z.eqb_spec (ID x) (ID r)) as [Heq | Hne].
  - apply elem_of_cons in Hin as [-> | Hin]; [reflexivity |].
    exfalso. apply Hx. rewrite Heq. apply list_elem_of_fmap. eauto.
  - apply elem_of_cons in Hin as [-> | Hin]; [congruence |]. auto.
Qed.

Lemma find_none_id (rows : list NewsItem) (id : Z) :
  find (fun x => ID x =? id) rows = None <-> id ∉ map ID rows.
Proof.
  induction rows as [| x rows IH]; simpl.
  - split; [intros _ H; inversion H | reflexivity].
  - rewrite not_elem_of_cons. destruct (Z.eqb_spec (ID x) id) as [Heq | Hne].
    + split; [discriminate | intros [? _]; congruence].
    + rewrite IH. split; [auto | intros [_ ?]; assumption].
Qed.

Lemma CreateNewsItem_success (d d' : DB) (item : NewsItem) (item' : option NewsItem) :
  CreateNewsItem d (Some item) = (d', item', None) ->
  Title item <> EmptyString /\ Link item <> EmptyString /\
  has_link (news d) (Link item) = false /\
  news d' = news d ++ [new_row d item] /\ serial d' = serial d + 1 /\
  db_calls d' = S (db_calls d) /\ db_fault d' = db_fault d /\
  item' = Some {| ID := serial d + 1; Title := Title item; Link := Link item;
                  Published := Published item; Description := Description item;
                  Image := Image item |}.
Proof.
  unfold CreateNewsItem, insert_news.
  destruct (String.eqb_spec (Title item) EmptyString) as [Ht | Ht]; [discriminate |].
  destruct (String.eqb_spec (Link item) EmptyString) as [Hl | Hl]; [discriminate |].
  simpl. destruct (db_fault d (db_calls d)) as [e |].
  { destruct e as [| | | | | code]; try discriminate.
    destruct (String.eqb code "23505"); discriminate. }
  destruct (has_link (news d) (Link item)) eqn:Hhas.
  { simpl. discriminate. }
  intros [= <- <-]. simpl. auto 10.
Qed.

Lemma CreateNewsItem_failure (d d' : DB) (item item' : option NewsItem) (e : error) :
  CreateNewsItem d item = (d', item', Some e) ->
  news d' = news d /\ item' = item /\ serial d <= serial d' /\ db_fault d' = db_fault d.
Proof.
  unfold CreateNewsItem, insert_news. destruct item as [it |].
  2:{ intros [= <- <- _]. repeat split; lia. }
  destruct (String.eqb (Title it) EmptyString || String.eqb (Link it) EmptyString).
  { intros [= <- <- _]. repeat split; lia. }
  destruct (db_fault d (db_calls d)) as [e0 |].
  { destruct e0 as [| | | | | code]; try (intros [= <- <- _]; simpl; repeat split; lia).
    destruct (String.eqb code "23505"); intros [= <- <- _]; simpl; repeat split; lia. }
  destruct (has_link (news d) (Link it)).
  - simpl. intros [= <- <- _]. simpl. repeat split; lia.
  - discriminate.
Qed.


(** X8: creating an item whose link is already stored reports
    [ErrAlreadyExists], leaves the table as it is and does not touch the
    caller's item. *)
Theorem CreateNewsItem_duplicate (d : DB) (item : NewsItem) :
  Title item <> EmptyString -> Link item <> EmptyString ->
  db_fault d (db_calls d) = None ->
  (exists r, r ∈ news d /\ Link r = Link item) ->
  exists d', CreateNewsItem d (Some item) = (d', Some item, Some ErrAlreadyExists) /\
             news d' = news d.
Proof.
  intros Ht Hl Hfault Hdup. apply has_link_true in Hdup.
  unfold CreateNewsItem, insert_news.
  destruct (String.eqb_spec (Title item) EmptyString); [contradiction |].
  destruct (String.eqb_spec (Link item) EmptyString); [contradiction |].
  simpl. rewrite Hfault, Hdup. simpl. eexists. split; reflexivity.
Qed.

Lemma set_fields_ID (item r : NewsItem) : ID (set_fields item r) = ID r.
Proof. unfold set_fields. destruct (ID r =? ID item); reflexivity. Qed.

Lemma update_news_rows (d d' : DB) (item : NewsItem) (res : Z + error) :
  update_news d item = (d', res) ->
  serial d' = serial d /\
  (news d' = news d \/
   (news d' = map (set_fields item) (news d) /\
    links_unique (map (set_fields item) (news d)) = true)).
Proof.
  unfold update_news. destruct (db_fault d (db_calls d)).
  { intros [= <- _]. auto. }
  destruct (links_unique (map (set_fields item) (news d))) eqn:Hu;
    intros [= <- _]; simpl; auto.
Qed.

Lemma SaveNewsItem_keeps_schema (d : DB) (item : NewsItem) :
  DB_ok d -> DB_ok (SaveNewsItem d item).1.
Proof.
  intros (Hlinks & Hids & Hser). unfold SaveNewsItem.
  destruct (update_news d item) as [d' res] eqn:Hu.
  apply update_news_rows in Hu as (Hs & Hrows).
  assert (Hok : DB_ok d').
  { unfold DB_ok. rewrite Hs. destruct Hrows as [-> | [-> Hunique]].
    - repeat split; assumption.
    - split; [exact Hunique |]. split.
      + rewrite map_map. erewrite map_ext; [exact Hids |].
        intros r. apply set_fields_ID.
      + intros r Hr. apply list_elem_of_fmap in Hr as (r0 & -> & Hr0).
        rewrite set_fields_ID. apply Hser, Hr0. }
  destruct res as [affected | e]; [destruct (affected =? 0) |]; exact Hok.
Qed.

Lemma CreateNewsItem_keeps_schema (d : DB) (item : option NewsItem) :
  DB_ok d -> DB_ok (CreateNewsItem d item).1.1.
Proof.
  intros (Hlinks & Hids & Hser).
  destruct (CreateNewsItem d item) as [[d' item'] [e |]] eqn:Hc; simpl.
  - apply CreateNewsItem_failure in Hc as (Hnews & _ & Hs & _).
    unfold DB_ok. rewrite Hnews. repeat split; try assumption.
    intros r Hr. apply Hser in Hr. lia.
  - destruct item as [it |]; [| discriminate].
    apply CreateNewsItem_success in Hc as (_ & _ & Hfresh & Hnews & Hs & _).
    unfold DB_ok. rewrite Hnews, Hs. repeat split.
    + apply links_unique_NoDup. rewrite map_app. simpl.
      apply NoDup_app. split; [apply links_unique_NoDup, Hlinks | split].
      * intros x Hx Hx'. apply list_elem_of_singleton in Hx'. subst x.
        apply has_link_false in Hfresh. contradiction.
      * apply NoDup_singleton.
    + rewrite map_app. simpl. apply NoDup_app. split; [exact Hids | split].
      * intros x Hx Hx'. apply list_elem_of_singleton in Hx'. subst x.
        apply list_elem_of_fmap in Hx as (r & Heq & Hr). apply Hser in Hr. lia.
      * apply NoDup_singleton.
    + intros r Hr. apply elem_of_app in Hr as [Hr | Hr].
      * apply Hser in Hr. lia.
      * apply list_elem_of_singleton in Hr. subst r. simpl. lia.
Qed.

(** X9: the storage operations keep the table as the schema wants it:
    whatever the outcome of [CreateNewsItem] or [SaveNewsItem], faults
    included, links stay unique, identifiers stay unique and none
    exceeds the sequence; an update never changes an identifier. *)
Theorem storage_keeps_schema (d : DB) :
  DB_ok d ->
  (forall item, DB_ok (CreateNewsItem d item).1.1) /\
  (forall item, DB_ok (SaveNewsItem d item).1 /\
                map ID (news (SaveNewsItem d item).1) = map ID (news d)).
Proof.
  intros Hok. split; intros item.
  - apply CreateNewsItem_keeps_schema, Hok.
  - split; [apply SaveNewsItem_keeps_schema, Hok |].
    unfold SaveNewsItem. destruct (update_news d item) as [d' res] eqn:Hu.
    apply update_news_rows in Hu as (_ & Hrows).
    assert (Hids : map ID (news d') = map ID (news d)).
    { destruct Hrows as [-> | [-> _]]; [reflexivity |].
      rewrite map_map. apply map_ext. intros r. apply set_fields_ID. }
    destruct res as [affected | e]; [destruct (affected =? 0) |]; exact Hids.
Qed.


(** X10: an update that succeeds can be read back: the row with the
    item's identifier now carries the item's title, link, description
    and image and keeps its timestamp, and every other row is as it
    was. *)
Theorem SaveNewsItem_read_back (d d' : DB) (item : NewsItem) :
  DB_ok d ->
  SaveNewsItem d item = (d', None) ->
  db_fault d' (db_calls d') = None ->
  int4 (ID item) = true ->
  exists old r,
    old ∈ news d /\ ID old = ID item /\
    GetSingleNews d' (ID item) = (after_statement d', Some r, None) /\
    ID r = ID item /\ Title r = Title item /\ Link r = Link item /\
    Description r = Description item /\ Image r = Image item /\
    Published r = Published old /\
    (forall x, x ∈ news d -> ID x <> ID item -> x ∈ news d').
Proof.
  intros Hok Hsave Hfault Hint.
  pose proof (SaveNewsItem_keeps_schema d item Hok) as Hok'.
  rewrite Hsave in Hok'. simpl in Hok'. destruct Hok' as (_ & Hids' & _).
  apply SaveNewsItem_rows in Hsave as (Hnews & old & Hold & Hid).
  set (r := set_fields item old).
  assert (Hr : r = {| ID := ID old; Title := Title item; Link := Link item;
                      Published := Published old; Description := Description item;
                      Image := Image item |}).
  { subst r. unfold set_fields. destruct (Z.eqb_spec (ID old) (ID item)); congruence. }
  assert (Hin : r ∈ news d').
  { rewrite Hnews. apply list_elem_of_fmap. eauto. }
  exists old, r. split; [exact Hold |]. split; [exact Hid |]. split.
  - unfold GetSingleNews, select_by_id. rewrite Hfault, Hint. simpl negb. cbv iota.
    replace (ID item) with (ID r) by (rewrite Hr; exact Hid).
    rewrite (find_by_id _ _ Hids' Hin). reflexivity.
  - rewrite Hr. simpl. repeat split; try assumption.
    intros x Hx Hne. rewrite Hnews. apply list_elem_of_fmap. exists x.
    split; [| exact Hx]. unfold set_fields.
    destruct (Z.eqb_spec (ID x) (ID item)); congruence.
Qed.


(** ** The read API and the web handlers *)

Section Handlers.

Variable order_by_published : list NewsItem -> list NewsItem.

Lemma GetNews_error (d : DB) (f : Filters) :
  forall d' items meta e,
    storage.GetNews order_by_published d f = (d', items, meta, Some e) ->
    items = [] /\ meta = zeroMetadata.
Proof.
  intros d' items meta e. unfold storage.GetNews.
  destruct (storage.select_page order_by_published d (limit f) (offset f)) as [d1 [rows | e1]].
  - destruct (storage.scan_rows rows). discriminate.
  - intros [= _ <- <- _]. auto.
Qed.

(** The read API normalises and then asks the storage. *)
Lemma listNews_GetNews (d : DB) (f : Filters) :
  api.listNews order_by_published d f =
  storage.GetNews order_by_published d (validate f defaultFilters).
Proof.
  unfold api.listNews.
  destruct (storage.GetNews order_by_published d (validate f defaultFilters))
    as [[[d' items] meta] [e |]] eqn:Hget; [| reflexivity].
  apply GetNews_error in Hget as [-> ->]. reflexivity.
Qed.

Lemma validate_twice (f : Filters) :
  validate (validate f defaultFilters) defaultFilters = validate f defaultFilters.
Proof.
  destruct f as [p s]. rewrite !validate_fields. simpl.
  destruct (Z.ltb_spec p 1), (Z.ltb_spec s 1); simpl; try reflexivity;
    f_equal;
    repeat match goal with
           | H : 1 <= ?x |- context [?x <? 1] =>
               let E := fresh in
               assert (E : (x <? 1) = false) by (apply Z.ltb_ge; exact H); rewrite E
           end; reflexivity.
Qed.

(** X12: callers of the read API need not validate: a request with a
    page or size below 1 is answered like the request with the default
    in its place, and a request with both below 1 like the default
    request (page 1, size 5). *)
Theorem listNews_normalises (d : DB) (f : Filters) :
  api.listNews order_by_published d f
  = api.listNews order_by_published d (validate f defaultFilters) /\
  (Page f < 1 /\ PageSize f < 1 ->
   api.listNews order_by_published d f = api.listNews order_by_published d defaultFilters).
Proof.
  split.
  - rewrite !listNews_GetNews, validate_twice. reflexivity.
  - intros [Hp Hs]. rewrite !listNews_GetNews. f_equal.
    rewrite !validate_fields. simpl.
    apply Z.ltb_lt in Hp, Hs. rewrite Hp, Hs. reflexivity.
Qed.

Lemma indexHandler_GetNews (d : DB) (query : string -> string) :
  api.indexHandler order_by_published d query =
  match storage.GetNews order_by_published d (query_filters query) with
  | (d', _, _, Some _) => (d', WriteHeader StatusInternalServerError)
  | (d', news, meta, None) => (d', IndexPage news meta)
  end.
Proof.
  unfold api.indexHandler. rewrite listNews_GetNews, validate_twice. reflexivity.
Qed.

(** X13: the index page never refuses a query.  Whatever the [page] and
    [pagesize] parameters hold, the filters it uses have page and size
    of at least 1; when both parameters are absent they are page 1 and
    size 5; a bare status is only ever 500; and when the database
    answers and the offset fits, the page is rendered with the rows of
    that page. *)
Theorem indexHandler_serves (d : DB) (query : string -> string) :
  let f := query_filters query in
  1 <= Page f /\ 1 <= PageSize f /\
  (query "page" = EmptyString /\ query "pagesize" = EmptyString -> f = defaultFilters) /\
  (forall code, (api.indexHandler order_by_published d query).2 = WriteHeader code ->
                code = StatusInternalServerError) /\
  (db_fault d (db_calls d) = None -> normalized f ->
   exists meta,
     api.indexHandler order_by_published d query
     = (after_statement d, IndexPage (page_rows order_by_published d f) meta)).
Proof.
  cbv zeta. split; [apply validate_normalizes |]. split; [apply validate_normalizes |].
  split; [| split].
  - intros [Hp Hs]. unfold query_filters. rewrite Hp, Hs. reflexivity.
  - intros code. rewrite indexHandler_GetNews.
    destruct (storage.GetNews _ d (query_filters query)) as [[[d' news] meta] [e |]]; simpl.
    + intros [= <-]. reflexivity.
    + discriminate.
  - intros Hfault Hnorm. rewrite indexHandler_GetNews.
    destruct (normalized_offset _ Hnorm) as [_ Hpos].
    rewrite GetNews_page; [| exact Hfault | | exact Hpos].
    + eexists. reflexivity.
    + unfold limit. destruct Hnorm as (_ & _ & ? & _). lia.
Qed.

(** X14: the article page answers 400 without touching the database
    when [id] is not a number.  Otherwise, when the database answers:
    an identifier beyond the range of the column is a server error,
    500; an identifier in range that no row carries is 404; and one
    that a row carries renders that row. *)
Theorem articleHandler_status (d : DB) (query : string -> string) :
  (forall n e, strconv.Atoi (query "id") = (n, Some e) ->
               api.articleHandler d query = (d, WriteHeader StatusBadRequest)) /\
  (forall id, strconv.Atoi (query "id") = (id, None) ->
              db_fault d (db_calls d) = None -> DB_ok d ->
              (int4 id = false ->
               api.articleHandler d query
               = (after_statement d, WriteHeader StatusInternalServerError)) /\
              (int4 id = true -> (forall r, r ∈ news d -> ID r <> id) ->
               api.articleHandler d query = (after_statement d, WriteHeader StatusNotFound)) /\
              (int4 id = true ->
               forall r, r ∈ news d -> ID r = id ->
                         api.articleHandler d query
                         = (after_statement d, ArticlePage (Some r)))).
Proof.
  split.
  - intros n e Hatoi. unfold api.articleHandler. rewrite Hatoi. reflexivity.
  - intros id Hatoi Hfault (_ & Hids & _). unfold api.articleHandler. rewrite Hatoi.
    unfold api.getSingleNews, GetSingleNews, select_by_id. rewrite Hfault.
    split; [| split].
    + intros ->. reflexivity.
    + intros -> Hnone.
      assert (Hfind : find (fun r => ID r =? id) (news d) = None).
      { apply find_none_id. intros Hin. apply list_elem_of_fmap in Hin as (r & Heq & Hr).
        apply (Hnone r Hr). congruence. }
      simpl negb. cbv iota. rewrite Hfind. reflexivity.
    + intros -> r Hr <-. simpl negb. cbv iota.
      rewrite (find_by_id _ _ Hids Hr). reflexivity.
Qed.

End Handlers.

(** ** The parser: feed items and enrichments *)

Lemma carries_under (msg : string) (e cause : error) :
  carries e cause -> carries (wrapError msg e) cause.
Proof. intros H. right. exact H. Qed.

(** X15: [GetNews] returns the entries of the decoded feed, in feed
    order, with title and link set and every other field zero; or no
    item and an error that carries the cause, a failed fetch or a
    failed decoding. *)
Theorem GetNews_outcomes (ParseString : string -> list (string * string) + error)
    (net : Network) (RssUrl : string) :
  match GetNews ParseString net RssUrl with
  | (items, None) =>
      exists body feed,
        getContents net RssUrl = (body, None) /\ ParseString body = inl feed /\
        map (fun it => (Title it, Link it)) items = feed /\
        Forall (fun it => ID it = 0 /\ Published it = 0 /\
                          Description it = EmptyString /\ Image it = EmptyString) items
  | (items, Some err) =>
      items = [] /\
      ((exists cause, (getContents net RssUrl).2 = Some cause /\ carries err cause) \/
       (exists body cause, getContents net RssUrl = (body, None) /\
                           ParseString body = inr cause /\ carries err cause))
  end.
Proof.
  unfold GetNews, parseRSS.
  destruct (getContents net RssUrl) as [body [e |]] eqn:Hget.
  - split; [reflexivity |]. left. exists e. split; [reflexivity |].
    apply carries_wrap.
  - destruct (ParseString body) as [feed | e] eqn:Hparse.
    + exists body, feed. split; [reflexivity |]. split; [exact Hparse |]. clear. split.
      * induction feed as [| [t l] feed IH]; [reflexivity |]. simpl. f_equal. exact IH.
      * induction feed as [| [t l] feed IH]; simpl; constructor; auto.
    + split; [reflexivity |]. right. exists body, e.
      split; [reflexivity |]. split; [exact Hparse |].
      apply carries_under, carries_wrap.
Qed.

Lemma well_formed_size (m : gmap string string) :
  well_formed m ->
  size m = (match m !! "description" with Some _ => 1 | None => 0 end
            + match m !! "image" with Some _ => 1 | None => 0 end)%nat.
Proof.
  intros Hm.
  assert (Hempty : delete "image" (delete "description" m) = (∅ : gmap string string)).
  { apply map_eq. intros k. rewrite lookup_empty.
    destruct (decide (k = "image")) as [-> | Hi]; [apply lookup_delete_eq |].
    rewrite lookup_delete_ne by congruence.
    destruct (decide (k = "description")) as [-> | Hd]; [apply lookup_delete_eq |].
    rewrite lookup_delete_ne by congruence.
    destruct (m !! k) as [v |] eqn:Hk; [| reflexivity].
    destruct (Hm k v Hk) as [[-> | ->] _]; congruence. }
  apply (f_equal size) in Hempty. rewrite map_size_empty in Hempty.
  rewrite !map_size_delete in Hempty.
  rewrite lookup_delete_ne in Hempty by discriminate.
  destruct (m !! "description") as [v |] eqn:Hd, (m !! "image") as [w |] eqn:Hi;
    simpl in Hempty.
  - assert (size m <> 0)%nat by (apply map_size_ne_0_lookup_2 with "image"; eauto).
    assert (size (delete "description" m) <> 0)%nat.
    { apply map_size_ne_0_lookup_2 with "image".
      rewrite lookup_delete_ne by discriminate. eauto. }
    rewrite map_size_delete, Hd in H0. lia.
  - assert (size m <> 0)%nat by (apply map_size_ne_0_lookup_2 with "description"; eauto).
    unfold id in Hempty. lia.
  - assert (size m <> 0)%nat by (apply map_size_ne_0_lookup_2 with "image"; eauto).
    unfold id in Hempty. lia.
  - unfold id in Hempty. lia.
Qed.


(** X16: [Enrich] returns under every iteration order of the table.  It
    never touches the identifier, title, link or timestamp of the item;
    when the page cannot be fetched the item comes back unchanged with
    a count of 0 and an error that carries the cause; otherwise the
    count is the number of the two fields, description and image, that
    come back non-empty. *)
Theorem Enrich_fields (net : Network) (order : list (string * string)) (item : NewsItem) :
  range_order order ->
  exists item' applied err,
    Enrich net order item = Some (item', applied, err) /\
    ID item' = ID item /\ Title item' = Title item /\
    Link item' = Link item /\ Published item' = Published item /\
    match err with
    | Some e =>
        item' = item /\ applied = 0 /\
        exists cause, (getContents net (Link item)).2 = Some cause /\ carries e cause
    | None =>
        applied = (if decide (Description item' = EmptyString) then 0 else 1)
                  + (if decide (Image item' = EmptyString) then 0 else 1)
    end.
Proof.
  intros Horder. unfold Enrich, GetEnrichments.
  destruct (getContents net (Link item)) as [body [e |]] eqn:Hget.
  - exists item, 0, (Some (wrapError "failed to get enrichments: "
                            (wrapError "failed to get enrichments: " e))).
    repeat split. exists e. split; [reflexivity |].
    apply carries_under, carries_wrap.
  - destruct (extractEnrichments_total order body Horder) as (m & -> & Hm).
    eexists _, _, None. split; [reflexivity |]. simpl. repeat split.
    rewrite (well_formed_size m Hm). unfold map_index.
    destruct (m !! "description") as [v |] eqn:Hd, (m !! "image") as [w |] eqn:Hi; simpl;
      repeat match goal with
             | H : m !! _ = Some ?v |- _ =>
                 let Hne := fresh in
                 assert (Hne : v <> EmptyString) by (apply (Hm _ _ H));
                 rewrite (decide_False (P := v = EmptyString)) by exact Hne; clear H
             end;
      repeat rewrite (decide_True (P := EmptyString = EmptyString)) by reflexivity;
      reflexivity.
Qed.

Lemma Enrich_fields_witness :
  exists item' applied err,
    Enrich example_page (map_to_list enrichmentTable) example_row
    = Some (item', applied, err) /\
    ID item' = ID example_row /\ Title item' = Title example_row /\
    Link item' = Link example_row /\ Published item' = Published example_row /\
    match err with
    | Some e =>
        item' = example_row /\ applied = 0 /\
        exists cause, (getContents example_page (Link example_row)).2 = Some cause /\
                      carries e cause
    | None =>
        applied = (if decide (Description item' = EmptyString) then 0 else 1)
                  + (if decide (Image item' = EmptyString) then 0 else 1)
    end.
Proof.
  apply (Enrich_fields example_page (map_to_list enrichmentTable) example_row).
  unfold range_order. reflexivity.
Defined.

Lemma append_cons (x : ascii) (a b : string) :
  (String x a ++ b)%string = String x (a ++ b).
Proof. reflexivity. Qed.

Lemma append_assoc (a b c : string) : ((a ++ b) ++ c = a ++ (b ++ c))%string.
Proof.
  induction a as [| x a IH]; [reflexivity |].
  rewrite !append_cons. f_equal. exact IH.
Qed.

Lemma strip_prefix_app (a s rest : string) :
  regexp.strip_prefix a s = Some rest -> s = (a ++ rest)%string.
Proof.
  revert s. induction a as [| x a IH]; intros s; simpl.
  - intros [= ->]. reflexivity.
  - destruct s as [| y s]; [discriminate |].
    destruct (Ascii.eqb_spec x y) as [-> |]; [| discriminate].
    intros H. rewrite append_cons. f_equal. apply IH, H.
Qed.

Lemma first_alt_app (alts : list string) (s rest : string) :
  regexp.first_alt alts s = Some rest -> exists a, In a alts /\ s = (a ++ rest)%string.
Proof.
  induction alts as [| a alts IH]; simpl; [discriminate |].
  destruct (regexp.strip_prefix a s) as [rest' |] eqn:Ha.
  - intros [= <-]. exists a. split; [left; reflexivity | apply strip_prefix_app, Ha].
  - intros H. destruct (IH H) as (a' & Hin & Heq). eauto.
Qed.

(** A repetition that succeeds has eaten a non-empty stretch free of
    the excluded byte. *)
Lemma run_PlusNot_eats (c : ascii) (p : regexp.Regexp) (s : string) (st : regexp.caps)
    (res : string * regexp.caps) :
  regexp.run (regexp.PlusNot c :: p) s st = Some res ->
  exists w s1, s = (w ++ s1)%string /\ w <> EmptyString /\ has_byte c w = false /\
               regexp.run p s1 st = Some res.
Proof.
  induction s as [| a s IH]; [discriminate |].
  rewrite run_PlusNot_step.
  destruct (Ascii.eqb a c) eqn:Hac; [discriminate |].
  destruct (regexp.run (regexp.PlusNot c :: p) s st) as [r |] eqn:Hmore.
  - intros [= <-]. destruct (IH eq_refl) as (w & s1 & -> & _ & Hw & Hrun).
    exists (String a w), s1. simpl. rewrite Hac, Hw. repeat split; [discriminate | exact Hrun].
  - intros Hrun. exists (String a EmptyString), s. simpl. rewrite Hac.
    repeat split; [discriminate | exact Hrun].
Qed.

Lemma take_str_app (w s : string) : regexp.take_str (String.length w) (w ++ s) = w.
Proof.
  induction w as [| a w IH]; [destruct s; reflexivity |].
  rewrite append_cons. simpl. f_equal. exact IH.
Qed.

Lemma length_append (w s : string) :
  String.length (w ++ s) = (String.length w + String.length s)%nat.
Proof.
  induction w as [| a w IH]; [reflexivity |].
  rewrite append_cons. simpl. f_equal. exact IH.
Qed.

Lemma between_app (w s : string) : regexp.between (w ++ s) s = w.
Proof.
  unfold regexp.between. rewrite length_append.
  replace (String.length w + String.length s - String.length s)%nat
    with (String.length w) by lia.
  apply take_str_app.
Qed.

(** A program without group marks eats a prefix of the input. *)
Lemma run_app_eats (pre rest : regexp.Regexp) :
  cap_free pre = true ->
  forall s st res,
    regexp.run (pre ++ rest) s st = Some res ->
    exists l s', s = (l ++ s')%string /\ regexp.run rest s' st = Some res.
Proof.
  intros Hpre. induction pre as [| n pre IH]; intros s st res Hrun.
  - exists EmptyString, s. split; [reflexivity | exact Hrun].
  - simpl in Hpre. apply andb_true_iff in Hpre as [Hn Hpre].
    destruct n as [alts | c | |]; try discriminate.
    + simpl in Hrun. destruct (regexp.first_alt alts s) as [s1 |] eqn:Halt; [| discriminate].
      apply first_alt_app in Halt as (a & _ & ->).
      destruct (IH Hpre _ _ _ Hrun) as (l & s' & -> & Hrest).
      exists (a ++ l)%string, s'. split; [symmetry; apply append_assoc | exact Hrest].
    + rewrite <- app_comm_cons in Hrun.
      apply run_PlusNot_eats in Hrun as (w & s1 & -> & _ & _ & Hrun).
      destruct (IH Hpre _ _ _ Hrun) as (l & s' & -> & Hrest).
      exists (w ++ l)%string, s'. split; [symmetry; apply append_assoc | exact Hrest].
Qed.

Lemma run_Lit (alts : list string) (p : regexp.Regexp) (s : string) (st : regexp.caps) :
  regexp.run (regexp.Lit alts :: p) s st =
  match regexp.first_alt alts s with
  | Some rest => regexp.run p rest st
  | None => None
  end.
Proof. reflexivity. Qed.

Lemma run_CapOpen (p : regexp.Regexp) (s : string) (st : regexp.caps) :
  regexp.run (regexp.CapOpen :: p) s st = regexp.run p s (Some s, snd st).
Proof. reflexivity. Qed.

Lemma run_CapClose (p : regexp.Regexp) (s from : string) (v : option string) :
  regexp.run (regexp.CapClose :: p) s (Some from, v)
  = regexp.run p s (None, Some (regexp.between from s)).
Proof. reflexivity. Qed.

Lemma run_quote (p : regexp.Regexp) (s : string) (st : regexp.caps)
    (res : string * regexp.caps) :
  regexp.run (regexp.Lit [dquote] :: p) s st = Some res ->
  exists s', s = (dquote ++ s')%string /\ regexp.run p s' st = Some res.
Proof.
  rewrite run_Lit.
  destruct (regexp.first_alt [dquote] s) as [s' |] eqn:Halt; [| discriminate].
  apply first_alt_app in Halt as (a & [<- | []] & ->). eauto.
Qed.

(** What a program of the table's shape captures when it matches. *)
Lemma run_quoted_group (p : regexp.Regexp) (s : string) (r : string) (st' : regexp.caps) :
  quoted_group p ->
  regexp.run p s (None, None) = Some (r, st') ->
  exists v, snd st' = Some v /\ attribute_value s v.
Proof.
  intros (pre & post & -> & Hpre & Hpost) Hrun.
  apply (run_app_eats pre _ Hpre) in Hrun as (l & s1 & -> & Hrun).
  apply run_quote in Hrun as (s2 & -> & Hrun).
  rewrite run_CapOpen in Hrun.
  apply run_PlusNot_eats in Hrun as (w & s3 & -> & _ & Hw & Hrun).
  rewrite run_CapClose, between_app in Hrun.
  apply run_quote in Hrun as (s4 & -> & Hrun).
  apply (run_cap_free post Hpost) in Hrun. subst st'.
  exists w. split; [reflexivity |]. split; [exact Hw |].
  exists l, s4. reflexivity.
Qed.

(** A match found by [FindStringSubmatch] starts at a suffix of the
    input. *)
Lemma FindStringSubmatch_suffix (p : regexp.Regexp) (s : string) :
  regexp.FindStringSubmatch p s = [] \/
  exists l s0 r, s = (l ++ s0)%string /\ regexp.run p s0 (None, None) = Some r /\
                 regexp.FindStringSubmatch p s = regexp.submatches p s0 r.
Proof.
  induction s as [| a s IH]; simpl.
  - destruct (regexp.run p EmptyString (None, None)) as [r |] eqn:Hrun; [| auto].
    right. exists EmptyString, EmptyString, r. auto.
  - destruct (regexp.run p (String a s) (None, None)) as [r |] eqn:Hrun.
    + right. exists EmptyString, (String a s), r. auto.
    + destruct IH as [-> | (l & s0 & r & -> & Hr & ->)]; [auto |].
      right. exists (String a l), s0, r. auto.
Qed.

Lemma table_quoted (name re : string) :
  enrichmentTable !! name = Some re ->
  exists p, regexp.MustCompile re = Some p /\ quoted_group p /\ regexp.has_group p = true.
Proof.
  unfold enrichmentTable. intros H.
  apply lookup_insert_Some in H as [[<- <-] | [_ H]];
    [| apply lookup_singleton_Some in H as [<- <-]];
    (eexists; split; [vm_compute; reflexivity |]; split; [| reflexivity]);
    match goal with
    | |- quoted_group ?p =>
        match eval vm_compute in (split_group p) with
        | Some (?pre', _, ?post') => exists (removelast pre'), (tl post')
        end
    end; repeat split.
Qed.

Lemma extract_step_values (html : string) (m : gmap string string) (name re : string) :
  enrichmentTable !! name = Some re ->
  exists m', extract_step html m (name, re) = Some m' /\
             (m' = m \/ exists v, attribute_value html v /\ m' = <[name := v]> m).
Proof.
  intros Htab. destruct (table_quoted name re Htab) as (p & Hcomp & Hq & Hgroup).
  unfold extract_step. simpl. rewrite Hcomp.
  destruct (FindStringSubmatch_suffix p html) as [-> | (l & s0 & [r st'] & -> & Hrun & ->)].
  - exists m. auto.
  - unfold regexp.submatches. rewrite Hgroup. simpl.
    destruct (run_quoted_group p s0 r st' Hq Hrun) as (v & Hv & Hfree & l' & r' & ->).
    eexists. split; [reflexivity |]. right. exists v. simpl in Hv. rewrite Hv. simpl.
    split; [| reflexivity]. split; [exact Hfree |].
    exists (l ++ l')%string, r'. symmetry. apply append_assoc.
Qed.

Lemma extract_range_values (html : string) (order : list (string * string)) :
  (forall name re, (name, re) ∈ order -> enrichmentTable !! name = Some re) ->
  forall m, (forall k v, m !! k = Some v -> attribute_value html v) ->
            exists m', extract_range html order m = Some m' /\
                       forall k v, m' !! k = Some v -> attribute_value html v.
Proof.
  induction order as [| [name re] order IH]; intros Hin m Hm; simpl.
  - eauto.
  - assert (Htab : enrichmentTable !! name = Some re) by (apply Hin; left).
    destruct (extract_step_values html m name re Htab) as (m1 & -> & Hm1).
    apply IH.
    + intros name' re' H. apply Hin. right. exact H.
    + destruct Hm1 as [-> | (v & Hv & ->)]; [exact Hm |].
      intros k w Hk. apply lookup_insert_Some in Hk as [[<- <-] | [_ Hk]].
      * exact Hv.
      * eapply Hm, Hk.
Qed.

(** X17: every value that [extractEnrichments] returns is an attribute
    value of the page: it holds no double quote, and it stands in the
    page between two double quotes.  A page without a double quote
    therefore yields the empty map. *)
Theorem extractEnrichments_values (order : list (string * string)) (html : string) :
  range_order order ->
  exists m : gmap string string,
    extractEnrichments order html = Some (m, None) /\
    (forall k v, m !! k = Some v ->
                 has_byte (ascii_of_nat 34) v = false /\
                 exists l r, html = (l ++ dquote ++ v ++ dquote ++ r)%string) /\
    (has_byte (ascii_of_nat 34) html = false -> m = ∅).
Proof.
  intros Horder.
  destruct (extract_range_values html order) with (m := (∅ : gmap string string))
    as (m & Hrun & Hm).
  - intros name re. apply range_order_in, Horder.
  - intros k v Hk. rewrite lookup_empty in Hk. discriminate.
  - exists m. unfold extractEnrichments. rewrite Hrun. split; [reflexivity |].
    split; [exact Hm |].
    intros Hfree. apply map_empty. intros k.
    destruct (m !! k) as [v |] eqn:Hk; [| reflexivity].
    destruct (Hm k v Hk) as (_ & l & r & Heq). exfalso.
    rewrite Heq in Hfree. clear - Hfree.
    induction l as [| a l IH].
    + discriminate.
    + rewrite append_cons in Hfree. simpl in Hfree.
      apply orb_false_iff in Hfree as [_ Hfree]. auto.
Qed.

Lemma extractEnrichments_values_witness :
  exists m : gmap string string,
    extractEnrichments (map_to_list enrichmentTable) example_html = Some (m, None) /\
    (forall k v, m !! k = Some v ->
                 has_byte (ascii_of_nat 34) v = false /\
                 exists l r, example_html = (l ++ dquote ++ v ++ dquote ++ r)%string) /\
    (has_byte (ascii_of_nat 34) example_html = false -> m = ∅).
Proof.
  apply (extractEnrichments_values (map_to_list enrichmentTable)).
  unfold range_order. reflexivity.
Defined.

(** ** The enrichment job *)




(** X18: a message that names a link which no row carries is answered
    with an error that is [ErrNotFound] to [errors.Is]; the table is
    not touched and one statement was sent. *)
Theorem EnrichNewsItem_unknown_link (n : Network) (order : list (string * string))
    (d : DB) (link : string) :
  db_fault d (db_calls d) = None ->
  link ∉ map Link (news d) ->
  exists e,
    part_004.EnrichNewsItem n order d link = Some (after_statement d, Some e) /\
    errors_Is e ErrNotFound = true.
Proof.
  intros Hfault Hlink. unfold part_004.EnrichNewsItem, GetNewsItem, select_by_link.
  rewrite Hfault.
  assert (Hfind : find (fun r => String.eqb (Link r) link) (news d) = None).
  { induction (news d) as [| r rows IH]; [reflexivity |]. simpl.
    destruct (String.eqb_spec (Link r) link) as [Heq | Hne].
    - exfalso. apply Hlink. rewrite <- Heq. left.
    - apply IH. intros Hin. apply Hlink. right. exact Hin. }
  rewrite Hfind. simpl. eexists. split; reflexivity.
Qed.



(** ** The parsing job *)

Lemma extends_refl (w : World) : extends w w.
Proof. split; reflexivity. Qed.

Lemma extends_trans (w1 w2 w3 : World) : extends w1 w2 -> extends w2 w3 -> extends w1 w3.
Proof. intros [? ?] [? ?]. split; etrans; eassumption. Qed.

Lemma save_item_safe (w : World) (saved skipped : Z) (item : NewsItem) :
  world_ok w ->
  world_ok (part_004.save_item (w, saved, skipped) item).1.1 /\
  extends w (part_004.save_item (w, saved, skipped) item).1.1.
Proof.
  intros [Hok Hq]. unfold part_004.save_item.
  pose proof (CreateNewsItem_keeps_schema (db w) (Some item) Hok) as Hok'.
  destruct (CreateNewsItem (db w) (Some item)) as [[d' item'] [e |]] eqn:Hc; simpl in Hok'.
  - apply CreateNewsItem_failure in Hc as (Hnews & _).
    assert (Hgoal : world_ok (record {| db := d'; mq := mq w; trace := trace w |}
                                (EvCreate item (Some e))) /\
                    extends w (record {| db := d'; mq := mq w; trace := trace w |}
                                 (EvCreate item (Some e)))).
    { unfold world_ok, extends, queue_backed. simpl. rewrite Hnews.
      split; [split; [exact Hok' | exact Hq] | split; reflexivity]. }
    destruct (errors_Is e ErrAlreadyExists); exact Hgoal.
  - apply CreateNewsItem_success in Hc as (_ & _ & _ & Hnews & _ & _ & _ & ->).
    unfold Publish. simpl.
    destruct (mq_fault (mq w) (mq_calls (mq w))); unfold world_ok, extends, queue_backed; simpl;
      rewrite Hnews, map_app.
    + split; [split; [exact Hok' |] | split; [| reflexivity]].
      * intros m Hm. apply elem_of_app. left. apply Hq, Hm.
      * apply prefix_app_r. reflexivity.
    + split; [split; [exact Hok' |] | split].
      * intros m Hm. apply elem_of_app. apply elem_of_app in Hm as [Hm | Hm].
        -- left. apply Hq, Hm.
        -- right. exact Hm.
      * apply prefix_app_r. reflexivity.
      * apply prefix_app_r. reflexivity.
Qed.

Lemma save_items_safe (items : list NewsItem) :
  forall (w : World) (saved skipped : Z),
    world_ok w ->
    world_ok (fold_left part_004.save_item items (w, saved, skipped)).1.1 /\
    extends w (fold_left part_004.save_item items (w, saved, skipped)).1.1.
Proof.
  induction items as [| item items IH]; intros w saved skipped Hw.
  - split; [exact Hw | apply extends_refl].
  - cbn [fold_left].
    destruct (save_item_safe w saved skipped item Hw) as [Hw1 Hext1].
    destruct (part_004.save_item (w, saved, skipped) item) as [[w1 saved1] skipped1].
    destruct (IH w1 saved1 skipped1 Hw1) as [Hw2 Hext2].
    split; [exact Hw2 | eapply extends_trans; eassumption].
Qed.

Section ParsingJobSafety.

Variable ParseString : string -> list (string * string) + error.
Variable RssUrl : string.

Lemma turn_body_safe (retry : Z) (w : World) (t : Tick) :
  world_ok w ->
  match part_004.turn_body ParseString RssUrl retry w t with
  | Continue _ w' | Return _ w' => world_ok w' /\ extends w w'
  end.
Proof.
  intros Hw. unfold part_004.turn_body.
  destruct (GetNews ParseString (net t) RssUrl) as [items [e |]].
  - assert (Hrec : world_ok (record w (EvGetNews (Some e))) /\
                   extends w (record w (EvGetNews (Some e)))).
    { split; [exact Hw | split; reflexivity]. }
    destruct (retry >? part_004.limit); [exact Hrec |].
    destruct (cancelled t); exact Hrec.
  - unfold part_004.save_items.
    assert (Hrec : world_ok (record w (EvGetNews None))) by exact Hw.
    destruct (save_items_safe items _ 0 0 Hrec) as [Hw' Hext].
    destruct (fold_left part_004.save_item items _) as [[w' saved] skipped].
    destruct (cancelled t); (split; [exact Hw' | exact Hext]).
Qed.

Lemma job_loop_safe (ticks : list Tick) :
  forall (retry : Z) (w : World),
    world_ok w ->
    world_ok (job_loop (part_004.turn_body ParseString RssUrl) retry w ticks).1.1 /\
    extends w (job_loop (part_004.turn_body ParseString RssUrl) retry w ticks).1.1.
Proof.
  induction ticks as [| t ticks IH]; intros retry w Hw.
  - split; [exact Hw | apply extends_refl].
  - simpl. pose proof (turn_body_safe retry w t Hw) as Hturn.
    destruct (part_004.turn_body ParseString RssUrl retry w t) as [retry' w' | retry' w'].
    + destruct Hturn as [Hw' Hext]. destruct (IH retry' w' Hw') as [Hw2 Hext2].
      split; [exact Hw2 | eapply extends_trans; eassumption].
    + exact Hturn.
Qed.

(** X20: whatever the feed, the database and the queue do, the parsing
    job only ever appends: the rows and the messages it found are still
    there, in place and unchanged, however long it runs.  The table
    stays as the schema wants it, and every message in the queue is the
    link of a stored row. *)
Theorem ParsingJob_appends_only (ticks : list Tick) (w : World) :
  DB_ok (db w) ->
  (forall m, m ∈ queue (mq w) -> m ∈ map Link (news (db w))) ->
  let w' := (part_004.ParsingJob ParseString RssUrl ticks w).1.1 in
  DB_ok (db w') /\
  (forall m, m ∈ queue (mq w') -> m ∈ map Link (news (db w'))) /\
  news (db w) `prefix_of` news (db w') /\
  queue (mq w) `prefix_of` queue (mq w').
Proof.
  intros Hok Hq. cbv zeta. unfold part_004.ParsingJob.
  destruct (job_loop_safe ticks 0 w (conj Hok Hq)) as [[Hok' Hq'] [Hnews Hqueue]].
  split; [exact Hok' | split; [exact Hq' | split; assumption]].
Qed.

(** A turn on which the context is cancelled is the last one. *)
Lemma turn_body_cancelled (retry : Z) (w : World) (t : Tick) :
  cancelled t = true ->
  exists retry' w', part_004.turn_body ParseString RssUrl retry w t = Return retry' w'.
Proof.
  intros Hc. unfold part_004.turn_body.
  destruct (GetNews ParseString (net t) RssUrl) as [items [e |]].
  - destruct (retry >? part_004.limit); [eauto |]. rewrite Hc. eauto.
  - destruct (part_004.save_items items _) as [[w' saved] skipped]. rewrite Hc. eauto.
Qed.

(** X21: cancellation stops the job.  On a turn whose [select] takes
    the cancellation of the context the job returns, and nothing that
    the surroundings would offer afterwards is looked at: no further
    fetch, no further write. *)
Theorem ParsingJob_cancelled (before after : list Tick) (t : Tick) (w : World) :
  cancelled t = true ->
  (part_004.ParsingJob ParseString RssUrl (before ++ [t]) w).2 = true /\
  part_004.ParsingJob ParseString RssUrl (before ++ t :: after) w
  = part_004.ParsingJob ParseString RssUrl (before ++ [t]) w.
Proof.
  intros Hc. unfold part_004.ParsingJob. generalize 0 as retry. revert w.
  induction before as [| t0 before IH]; intros w retry; simpl.
  - destruct (turn_body_cancelled retry w t Hc) as (retry' & w' & ->). auto.
  - destruct (part_004.turn_body ParseString RssUrl retry w t0) as [retry' w' | retry' w'].
    + apply IH.
    + auto.
Qed.

(** One turn without cancellation: the job goes on with the counter in
    step with the record, or returns after a fifth failure in a row. *)
Lemma turn_body_live (retry : Z) (w : World) (t : Tick) :
  cancelled t = false ->
  job_inv 4 retry w ->
  match part_004.turn_body ParseString RssUrl retry w t with
  | Continue retry' w' => job_inv 4 retry' w'
  | Return _ w' => (runs (attempts (trace w'))).1 = 5%nat
  end.
Proof.
  intros Hc (best & Hruns & Hretry & Hbest). unfold part_004.turn_body.
  destruct (GetNews ParseString (net t) RssUrl) as [items [e |]].
  - assert (Hadd : GoInt.add retry 1 = retry + 1).
    { apply wrap_small. unfold GoInt.in_range. rewrite MinInt_value, MaxInt_value. lia. }
    assert (Hruns' : runs (attempts (trace (record w (EvGetNews (Some e)))))
                     = (S (Z.to_nat retry), Nat.max best (S (Z.to_nat retry)))).
    { simpl. rewrite attempts_snoc.
      change (attempts [EvGetNews (Some e)]) with [true].
      rewrite runs_snoc, Hruns. reflexivity. }
    unfold part_004.limit.
    destruct (Z.gtb_spec retry 3) as [Hgt | Hle].
    + rewrite Hruns'. simpl. lia.
    + rewrite Hadd, Hc.
      exists (Nat.max best (S (Z.to_nat retry))). rewrite Hruns'.
      split; [f_equal; lia |]. lia.
  - pose proof (attempts_save_items CreateNewsItem items (record w (EvGetNews None), 0, 0))
      as Hsame.
    unfold part_004.save_items.
    change part_004.save_item with (service_go.save_item CreateNewsItem).
    destruct (fold_left _ items _) as [[w' saved] skipped]. simpl in Hsame.
    rewrite attempts_snoc in Hsame.
    change (attempts [EvGetNews None]) with [false] in Hsame.
    assert (Hruns' : runs (attempts (trace w')) = (0%nat, best)).
    { rewrite Hsame, runs_snoc, Hruns. reflexivity. }
    rewrite Hc. exists best. rewrite Hruns'. split; [reflexivity |]. lia.
Qed.

(** X22: without cancellation the job gives up for one reason only.
    If on no turn the [select] takes the cancellation and the job has
    returned, the record ends with five failed fetches in a row; so a
    job whose feed never fails five times in a row keeps running. *)
Theorem ParsingJob_gives_up_after_failures (ticks : list Tick) (w : World) :
  attempts (trace w) = [] ->
  Forall (fun t => cancelled t = false) ticks ->
  (part_004.ParsingJob ParseString RssUrl ticks w).2 = true ->
  (runs (attempts (trace (part_004.ParsingJob ParseString RssUrl ticks w).1.1))).1 = 5%nat.
Proof.
  intros Hw Hticks. unfold part_004.ParsingJob.
  assert (Hinv : job_inv 4 0 w).
  { exists 0%nat. rewrite Hw. split; [reflexivity |]. lia. }
  clear Hw. revert Hinv. generalize 0 as retry. revert w.
  induction Hticks as [| t ticks Hc _ IH]; intros w retry Hinv; simpl.
  - discriminate.
  - pose proof (turn_body_live retry w t Hc Hinv) as Hturn.
    destruct (part_004.turn_body ParseString RssUrl retry w t) as [retry' w' | retry' w'].
    + intros Hret. apply IH; assumption.
    + intros _. exact Hturn.
Qed.

End ParsingJobSafety.

(** The sums the item loop keeps fit into [int]. *)
Lemma add_one (n : Z) : 0 <= n < GoInt.MaxInt -> GoInt.add n 1 = n + 1.
Proof.
  intros H. apply wrap_small. unfold GoInt.in_range.
  rewrite MinInt_value. rewrite MaxInt_value in *. lia.
Qed.

Lemma eqb_empty (s : string) : s <> EmptyString -> String.eqb s EmptyString = false.
Proof. intros H. apply String.eqb_neq, H. Qed.

(** One fresh item on a healthy database and queue: a row, a message. *)
Lemma save_item_fresh (w : World) (saved skipped : Z) (item : NewsItem) :
  db_fault (db w) (db_calls (db w)) = None ->
  mq_fault (mq w) (mq_calls (mq w)) = None ->
  filled item -> Link item ∉ map Link (news (db w)) ->
  exists w',
    part_004.save_item (w, saved, skipped) item = (w', GoInt.add saved 1, skipped) /\
    news (db w') = news (db w) ++ stored_as (serial (db w) + 1) [item] /\
    serial (db w') = serial (db w) + 1 /\
    queue (mq w') = queue (mq w) ++ [Link item] /\
    db_calls (db w') = S (db_calls (db w)) /\ db_fault (db w') = db_fault (db w) /\
    mq_calls (mq w') = S (mq_calls (mq w)) /\ mq_fault (mq w') = mq_fault (mq w).
Proof.
  intros Hdb Hmq [Ht Hl] Hfresh. apply has_link_false in Hfresh.
  unfold part_004.save_item, CreateNewsItem, insert_news.
  rewrite (eqb_empty _ Ht), (eqb_empty _ Hl), Hdb, Hfresh. simpl.
  unfold Publish. simpl. rewrite Hmq. simpl.
  eexists. split; [reflexivity |]. simpl. repeat split.
Qed.

(** One known item on a healthy database: a conflict, and an identifier
    of the sequence spent. *)
Lemma save_item_known (w : World) (saved skipped : Z) (item : NewsItem) :
  db_fault (db w) (db_calls (db w)) = None ->
  filled item -> Link item ∈ map Link (news (db w)) ->
  exists w',
    part_004.save_item (w, saved, skipped) item = (w', saved, GoInt.add skipped 1) /\
    news (db w') = news (db w) /\ serial (db w') = serial (db w) + 1 /\
    mq w' = mq w /\
    db_calls (db w') = S (db_calls (db w)) /\ db_fault (db w') = db_fault (db w).
Proof.
  intros Hdb [Ht Hl] Hknown.
  assert (Hhas : has_link (news (db w)) (Link item) = true).
  { destruct (has_link (news (db w)) (Link item)) eqn:H; [reflexivity |].
    apply has_link_false in H. contradiction. }
  unfold part_004.save_item, CreateNewsItem, insert_news.
  rewrite (eqb_empty _ Ht), (eqb_empty _ Hl), Hdb, Hhas. simpl.
  eexists. split; [reflexivity |]. simpl. repeat split.
Qed.

Lemma stored_as_links (id : Z) (items : list NewsItem) :
  map Link (stored_as id items) = map Link items.
Proof.
  revert id. induction items as [| it items IH]; intros id; simpl; [reflexivity |].
  f_equal. apply IH.
Qed.

Lemma save_items_fresh_from (items : list NewsItem) :
  forall (w : World) (saved skipped : Z),
    (forall n, db_fault (db w) n = None) ->
    (forall n, mq_fault (mq w) n = None) ->
    Forall filled items -> NoDup (map Link items) ->
    (forall it, it ∈ items -> Link it ∉ map Link (news (db w))) ->
    0 <= saved -> saved + Z.of_nat (length items) <= GoInt.MaxInt ->
    exists w',
      fold_left part_004.save_item items (w, saved, skipped)
      = (w', saved + Z.of_nat (length items), skipped) /\
      news (db w') = news (db w) ++ stored_as (serial (db w) + 1) items /\
      serial (db w') = serial (db w) + Z.of_nat (length items) /\
      queue (mq w') = queue (mq w) ++ map Link items.
Proof.
  induction items as [| item items IH];
    intros w saved skipped Hdb Hmq Hfilled Hnd Hfresh Hsaved Hfit.
  - exists w. simpl. rewrite Z.add_0_r, !app_nil_r. change (Z.of_nat 0) with 0.
    rewrite Z.add_0_r. auto.
  - apply Forall_cons in Hfilled as [Hitem Hfilled].
    simpl in Hnd. apply NoDup_cons in Hnd as [Hhead Hnd].
    destruct (save_item_fresh w saved skipped item (Hdb _) (Hmq _) Hitem)
      as (w1 & Hstep & Hnews1 & Hserial1 & Hqueue1 & _ & Hdb1 & _ & Hmq1).
    { apply Hfresh. left. }
    cbn [fold_left]. rewrite Hstep.
    rewrite add_one by (simpl length in Hfit; lia).
    destruct (IH w1 (saved + 1) skipped) as (w' & Hrun & Hnews & Hserial & Hqueue).
    + intros n. rewrite Hdb1. apply Hdb.
    + intros n. rewrite Hmq1. apply Hmq.
    + exact Hfilled.
    + exact Hnd.
    + intros it Hit. rewrite Hnews1, map_app. simpl.
      intros Hin. apply elem_of_app in Hin as [Hin | Hin].
      * apply (Hfresh it); [right; exact Hit | exact Hin].
      * apply list_elem_of_singleton in Hin. apply Hhead. rewrite <- Hin.
        apply list_elem_of_fmap. eauto.
    + lia.
    + simpl length in Hfit. lia.
    + exists w'. rewrite Hrun, Hnews, Hserial, Hqueue, Hnews1, Hserial1, Hqueue1.
      simpl. rewrite <- !app_assoc. simpl.
      split; [f_equal; f_equal; lia |]. split; [reflexivity |].
      split; [lia | reflexivity].
Qed.

(** X23: a feed of new items is stored and announced in full.  On a
    database and a queue that do not fail, items with title and link,
    whose links differ from one another and from every stored link, are
    all saved and none skipped; the table gains one row per item, in
    feed order, with consecutive identifiers and empty description and
    image, and the queue gains the links, in feed order. *)
Theorem save_items_fresh (items : list NewsItem) (w : World) :
  (forall n, db_fault (db w) n = None) ->
  (forall n, mq_fault (mq w) n = None) ->
  Forall filled items -> NoDup (map Link items) ->
  (forall it, it ∈ items -> Link it ∉ map Link (news (db w))) ->
  Z.of_nat (length items) <= GoInt.MaxInt ->
  exists w',
    part_004.save_items items w = (w', Z.of_nat (length items), 0) /\
    news (db w') = news (db w) ++ stored_as (serial (db w) + 1) items /\
    queue (mq w') = queue (mq w) ++ map Link items.
Proof.
  intros Hdb Hmq Hfilled Hnd Hfresh Hfit. unfold part_004.save_items.
  destruct (save_items_fresh_from items w 0 0 Hdb Hmq Hfilled Hnd Hfresh)
    as (w' & Hrun & Hnews & _ & Hqueue); [lia | lia |].
  exists w'. rewrite Hrun. auto.
Qed.

Lemma save_items_known_from (items : list NewsItem) :
  forall (w : World) (saved skipped : Z),
    (forall n, db_fault (db w) n = None) ->
    Forall filled items ->
    (forall it, it ∈ items -> Link it ∈ map Link (news (db w))) ->
    0 <= skipped -> skipped + Z.of_nat (length items) <= GoInt.MaxInt ->
    exists w',
      fold_left part_004.save_item items (w, saved, skipped)
      = (w', saved, skipped + Z.of_nat (length items)) /\
      news (db w') = news (db w) /\ mq w' = mq w /\
      serial (db w') = serial (db w) + Z.of_nat (length items).
Proof.
  induction items as [| item items IH];
    intros w saved skipped Hdb Hfilled Hknown Hskipped Hfit.
  - exists w. simpl. change (Z.of_nat 0) with 0. rewrite !Z.add_0_r. auto.
  - apply Forall_cons in Hfilled as [Hitem Hfilled].
    destruct (save_item_known w saved skipped item (Hdb _) Hitem)
      as (w1 & Hstep & Hnews1 & Hserial1 & Hmq1 & _ & Hdb1).
    { apply Hknown. left. }
    cbn [fold_left]. rewrite Hstep.
    rewrite add_one by (simpl length in Hfit; lia).
    destruct (IH w1 saved (skipped + 1)) as (w' & Hrun & Hnews & Hmq & Hserial).
    + intros n. rewrite Hdb1. apply Hdb.
    + exact Hfilled.
    + intros it Hit. rewrite Hnews1. apply Hknown. right. exact Hit.
    + lia.
    + simpl length in Hfit. lia.
    + exists w'. rewrite Hrun, Hnews, Hmq, Hserial, Hnews1, Hmq1, Hserial1.
      rewrite length_cons.
      split; [f_equal; lia |]. split; [reflexivity |]. split; [reflexivity | lia].
Qed.

(** X24: a feed that holds nothing new changes neither the table nor
    the queue.  On a database that does not fail, items with title and
    link whose links are all stored already are all skipped, none is
    saved and none announced. *)
Theorem save_items_known (items : list NewsItem) (w : World) :
  (forall n, db_fault (db w) n = None) ->
  Forall filled items ->
  (forall it, it ∈ items -> Link it ∈ map Link (news (db w))) ->
  Z.of_nat (length items) <= GoInt.MaxInt ->
  exists w',
    part_004.save_items items w = (w', 0, Z.of_nat (length items)) /\
    news (db w') = news (db w) /\ queue (mq w') = queue (mq w).
Proof.
  intros Hdb Hfilled Hknown Hfit. unfold part_004.save_items.
  destruct (save_items_known_from items w 0 0 Hdb Hfilled Hknown)
    as (w' & Hrun & Hnews & Hmq & _); [lia | lia |].
  exists w'. rewrite Hrun, Hmq. auto.
Qed.

(** ** The further properties at work *)

Lemma example_order_permutes (l : list NewsItem) : example_order l ≡ₚ l.
Proof. apply merge_sort_Permutation. Qed.

Ltac example_NoDup := apply (bool_decide_unpack _); vm_compute; exact I.

Ltac example_rows H :=
  repeat (apply elem_of_cons in H as [-> | H]); try (inversion H; fail).

Lemma example_db_ok : DB_ok example_db.
Proof.
  split; [reflexivity |]. split; [simpl; example_NoDup |].
  intros r Hr. simpl in Hr. example_rows Hr; simpl; lia.
Qed.

Lemma example_table_ok : DB_ok example_table.
Proof.
  split; [reflexivity |]. split; [simpl; example_NoDup |].
  intros r Hr. simpl in Hr. example_rows Hr; simpl; lia.
Qed.

Ltac example_normalized := repeat split; simpl; try discriminate; vm_compute; discriminate.

Lemma GetNews_past_the_end_witness :
  storage.GetNews example_order example_table {| Page := 2; PageSize := 5 |}
  = (after_statement example_table, [], zeroMetadata, None).
Proof.
  apply (GetNews_past_the_end example_order example_order_permutes example_table
           {| Page := 2; PageSize := 5 |}).
  - example_normalized.
  - reflexivity.
  - simpl. lia.
Defined.

Lemma GetNews_within_the_table_witness :
  exists items meta,
    storage.GetNews example_order example_table {| Page := 1; PageSize := 2 |}
    = (after_statement example_table, items, meta, None) /\
    (1 <= length items)%nat /\ Z.of_nat (length items) <= 2 /\
    (forall r, r ∈ items -> r ∈ news example_table) /\
    TotalRecords meta = 3 /\
    FirstPage meta = 1 /\ CurrentPage meta = 1 /\ MPageSize meta = 2 /\
    LastPage meta = ceil_div 3 2 /\
    1 <= LastPage meta.
Proof.
  apply (GetNews_within_the_table example_order example_order_permutes example_table
           {| Page := 1; PageSize := 2 |}).
  - example_normalized.
  - reflexivity.
  - simpl. lia.
  - simpl. lia.
Defined.


Lemma GetNews_next_page_witness :
  let '(d1, _, meta, _) :=
    storage.GetNews example_order example_table {| Page := 1; PageSize := 2 |} in
  let '(_, items2, _, _) :=
    storage.GetNews example_order d1 {| Page := 1 + 1; PageSize := 2 |} in
  CurrentPage meta < LastPage meta <-> items2 <> [].
Proof.
  apply (GetNews_next_page example_order example_order_permutes example_table
           {| Page := 1; PageSize := 2 |}).
  - example_normalized.
  - example_normalized.
  - reflexivity.
  - reflexivity.
  - simpl. lia.
  - simpl. lia.
Defined.


Lemma CreateNewsItem_duplicate_witness :
  exists d', CreateNewsItem example_db (Some example_old_item)
             = (d', Some example_old_item, Some ErrAlreadyExists) /\
             news d' = news example_db.
Proof.
  apply (CreateNewsItem_duplicate example_db example_old_item).
  - discriminate.
  - discriminate.
  - reflexivity.
  - exists example_row. split; [left | reflexivity].
Defined.

Lemma storage_keeps_schema_witness :
  (forall item, DB_ok (CreateNewsItem example_db item).1.1) /\
  (forall item, DB_ok (SaveNewsItem example_db item).1 /\
                map ID (news (SaveNewsItem example_db item).1) = map ID (news example_db)).
Proof. apply (storage_keeps_schema example_db example_db_ok). Defined.

Lemma SaveNewsItem_read_back_witness :
  let d' := (SaveNewsItem example_db example_edit).1 in
  exists old r, old ∈ news example_db /\ ID old = ID example_edit /\
    GetSingleNews d' (ID example_edit) = (after_statement d', Some r, None) /\
    ID r = ID example_edit /\ Title r = Title example_edit /\ Link r = Link example_edit /\
    Description r = Description example_edit /\ Image r = Image example_edit /\
    Published r = Published old /\
    (forall x, x ∈ news example_db -> ID x <> ID example_edit -> x ∈ news d').
Proof.
  cbv zeta.
  apply (SaveNewsItem_read_back example_db _ example_edit example_db_ok).
  - reflexivity.
  - reflexivity.
  - reflexivity.
Defined.


Lemma listNews_normalises_witness :
  api.listNews example_order example_table {| Page := 0; PageSize := 0 |}
  = api.listNews example_order example_table
      (validate {| Page := 0; PageSize := 0 |} defaultFilters) /\
  (Page {| Page := 0; PageSize := 0 |} < 1 /\ PageSize {| Page := 0; PageSize := 0 |} < 1 ->
   api.listNews example_order example_table {| Page := 0; PageSize := 0 |}
   = api.listNews example_order example_table defaultFilters).
Proof. exact (listNews_normalises example_order example_table {| Page := 0; PageSize := 0 |}). Defined.

Lemma indexHandler_serves_witness :
  let f := query_filters example_query in
  1 <= Page f /\ 1 <= PageSize f /\
  (example_query "page" = EmptyString /\ example_query "pagesize" = EmptyString ->
   f = defaultFilters) /\
  (forall code, (api.indexHandler example_order example_table example_query).2
                = WriteHeader code ->
                code = StatusInternalServerError) /\
  (db_fault example_table (db_calls example_table) = None -> normalized f ->
   exists meta,
     api.indexHandler example_order example_table example_query
     = (after_statement example_table,
        IndexPage (page_rows example_order example_table f) meta)).
Proof. exact (indexHandler_serves example_order example_table example_query). Defined.

Lemma articleHandler_status_witness :
  (forall n e, strconv.Atoi (example_query "id") = (n, Some e) ->
               api.articleHandler example_table example_query
               = (example_table, WriteHeader StatusBadRequest)) /\
  (forall id, strconv.Atoi (example_query "id") = (id, None) ->
              db_fault example_table (db_calls example_table) = None ->
              DB_ok example_table ->
              (int4 id = false ->
               api.articleHandler example_table example_query
               = (after_statement example_table, WriteHeader StatusInternalServerError)) /\
              (int4 id = true -> (forall r, r ∈ news example_table -> ID r <> id) ->
               api.articleHandler example_table example_query
               = (after_statement example_table, WriteHeader StatusNotFound)) /\
              (int4 id = true ->
               forall r, r ∈ news example_table -> ID r = id ->
                         api.articleHandler example_table example_query
                         = (after_statement example_table, ArticlePage (Some r)))).
Proof. exact (articleHandler_status example_table example_query). Defined.

Lemma EnrichNewsItem_unknown_link_witness :
  exists e,
    part_004.EnrichNewsItem example_page (map_to_list enrichmentTable) example_db
      (Link example_stranger)
    = Some (after_statement example_db, Some e) /\
    errors_Is e ErrNotFound = true.
Proof.
  apply (EnrichNewsItem_unknown_link example_page (map_to_list enrichmentTable) example_db
           (Link example_stranger)).
  - reflexivity.
  - simpl. intros Hin. apply elem_of_cons in Hin as [Hin | Hin]; [discriminate |].
    inversion Hin.
Defined.


Lemma example_world_ok : DB_ok (db example_world).
Proof. exact example_db_ok. Qed.

Lemma ParsingJob_appends_only_witness :
  let w' := (part_004.ParsingJob example_decoder example_url [example_tick; cancelled_tick]
               example_world).1.1 in
  DB_ok (db w') /\
  (forall m, m ∈ queue (mq w') -> m ∈ map Link (news (db w'))) /\
  news (db example_world) `prefix_of` news (db w') /\
  queue (mq example_world) `prefix_of` queue (mq w').
Proof.
  apply (ParsingJob_appends_only example_decoder example_url [example_tick; cancelled_tick]
           example_world example_world_ok).
  intros m Hm. inversion Hm.
Defined.

Lemma save_items_fresh_witness :
  exists w',
    part_004.save_items example_items empty_world
    = (w', Z.of_nat (length example_items), 0) /\
    news (db w') = news (db empty_world)
                   ++ stored_as (serial (db empty_world) + 1) example_items /\
    queue (mq w') = queue (mq empty_world) ++ map Link example_items.
Proof.
  apply (save_items_fresh example_items empty_world).
  - intros n. reflexivity.
  - intros n. reflexivity.
  - repeat (apply Forall_cons; split; [split; discriminate |]). apply Forall_nil_2.
  - simpl. example_NoDup.
  - intros it _ Hin. inversion Hin.
  - vm_compute. discriminate.
Defined.

Lemma save_items_known_witness :
  exists w',
    part_004.save_items [example_old_item] example_world
    = (w', 0, Z.of_nat (length [example_old_item])) /\
    news (db w') = news (db example_world) /\ queue (mq w') = queue (mq example_world).
Proof.
  apply (save_items_known [example_old_item] example_world).
  - intros n. reflexivity.
  - repeat (apply Forall_cons; split; [split; discriminate |]). apply Forall_nil_2.
  - intros it Hit. example_rows Hit. simpl. left.
  - vm_compute. discriminate.
Defined.

Lemma ParsingJob_cancelled_witness :
  (part_004.ParsingJob example_decoder example_url
     ([example_tick] ++ [cancelled_tick]) example_world).2 = true /\
  part_004.ParsingJob example_decoder example_url
    ([example_tick] ++ cancelled_tick :: [failing_tick]) example_world
  = part_004.ParsingJob example_decoder example_url
      ([example_tick] ++ [cancelled_tick]) example_world.
Proof.
  apply (ParsingJob_cancelled example_decoder example_url [example_tick] [failing_tick]
           cancelled_tick example_world).
  reflexivity.
Defined.

Lemma ParsingJob_gives_up_after_failures_witness :
  (runs (attempts (trace (part_004.ParsingJob example_decoder example_url
                            (repeat failing_tick 5) empty_world).1.1))).1 = 5%nat.
Proof.
  apply (ParsingJob_gives_up_after_failures example_decoder example_url
           (repeat failing_tick 5) empty_world).
  - reflexivity.
  - repeat (apply Forall_cons; split; [reflexivity |]). apply Forall_nil_2.
  - reflexivity.
Defined.
